(** * SuperCalc: the text-to-result pipeline of src/main.cpp

    The development follows the source file top to bottom: the lexer
    ([Lexer.next]), the shunting-yard pass ([toRPN]), the postfix evaluator
    ([applyOp], [evalRPN]) and the textual call rewriting
    ([preprocessFuncCalls]); [evaluate] is the body of the [try] block of
    [main].

    - A C++ [double] is an IEEE-754 binary64 number: Rocq's primitive
      [float], with the primitive [+ - * /], negation and comparison.
    - [std::string] buffers that are scanned by index are [list ascii] (the
      suffix that starts at the cursor); names that are compared or used as
      map keys are [string].
    - [std::runtime_error] is the [Err] outcome of [result]; the message of
      each [throw] is a constructor of [EvalError].
    - the functions of <cmath> are not code of this program: they are the
      fields of the class [cmath.Lib], and every statement holds for all of
      its instances. [strtod] is modelled on the decimal literals the lexer
      passes to it, correctly rounded.
    - a loop whose cursor jumps forward is a recursion on a bound, which is
      shown never to be reached.
    - what the program prints is not modelled. *)

From Stdlib Require Import ZArith Ascii String List Bool Lia.
From Stdlib Require Import PrimFloat FloatOps SpecFloat.
From stdpp Require Import gmap strings list.

Local Open Scope Z_scope.
Local Open Scope list_scope.

(** ** Outcomes *)

(** One constructor per [throw] of the source, named after the error
    taxonomy; the argument is what the message is completed with. *)
Inductive EvalError : Type :=
| LexError (c : ascii)              (* "Símbolo inválido: " + c *)
| MisplacedSeparator                (* "Coma fuera de contexto" *)
| UnbalancedParens                  (* "Paréntesis desbalanceados" *)
| UnbalancedCallParens              (* "Paréntesis desbalanceados en llamada a función" *)
| UnexpectedToken                   (* "Token inesperado" *)
| InvalidAssignment                 (* "Asignación inválida. Usa: nombre = expresión" *)
| MissingArgument (name : string)   (* "Falta(n) argumento(s) para función " + name *)
| UndefinedVariable (name : string) (* "Variable no definida: " + name *)
| StackUnderflow (op : string)      (* "Pila insuficiente (operador " + op + ")" *)
| DivisionByZero                    (* "División por cero" *)
| UnknownOperator (op : string)     (* "Operador desconocido: " + op *)
| InvalidExpression (in_assignment : bool)
                                    (* "Expresión inválida" / "... en asignación" *)
| OutOfFuel.                        (* bound of a loop reached: never returned, see
                                       [toRPN_fuel] and [preprocessFuncCalls_fuel] *)

Inductive result (A : Type) : Type :=
| Ok (a : A)
| Err (e : EvalError).
Arguments Ok {A} a.
Arguments Err {A} e.

Definition result_bind {A B : Type} (m : result A) (f : A -> result B) : result B :=
  match m with
  | Ok a => f a
  | Err e => Err e
  end.

#[global] Instance result_ret : MRet result := fun _ a => Ok a.
#[global] Instance result_mbind : MBind result := fun _ _ f m => result_bind m f.

(** ** Character classes of <cctype>, in the "C" locale *)

Definition code (c : ascii) : N := N_of_ascii c.

Definition in_range (lo hi : N) (c : ascii) : bool :=
  ((lo <=? code c) && (code c <=? hi))%N.

Definition isspace (c : ascii) : bool := in_range 9 13 c || (code c =? 32)%N.
Definition isdigit (c : ascii) : bool := in_range 48 57 c.
Definition isalpha (c : ascii) : bool := in_range 65 90 c || in_range 97 122 c.
Definition isalnum (c : ascii) : bool := isalpha c || isdigit c.

Definition is_char (c d : ascii) : bool := Ascii.eqb c d.

(** [span p s]: the longest prefix of [s] whose characters satisfy [p], and
    what follows it (the loops [while (i<n && p(s[i])) ++i]). *)
Fixpoint span (p : ascii -> bool) (s : list ascii) : list ascii * list ascii :=
  match s with
  | [] => ([], [])
  | c :: r => if p c then let '(a, b) := span p r in (c :: a, b) else ([], s)
  end.

(** ** String utilities *)

(** [ltrim]: the text from its first character that is not a space on. *)
Definition ltrim (s : list ascii) : list ascii := snd (span isspace s).

(** [rtrim]: the search runs on the reverse iterators, and what follows the
    last character that is not a space is erased. *)
Definition rtrim (s : list ascii) : list ascii := rev (snd (span isspace (rev s))).

Definition trim (s : list ascii) : list ascii := ltrim (rtrim s).

(** ** strtod *)

Definition digit_val (c : ascii) : Z := Z.of_N (code c) - 48.

Definition digits_val (ds : list ascii) : Z :=
  fold_left (fun acc c => 10 * acc + digit_val c) ds 0.

(** The binary64 number nearest to [m * 10^e10] (ties to even), for
    [0 <= m]. A negative [e10] divides: the quotient is taken with more than
    [prec + 2] bits and a sticky last bit, which rounds as the exact
    quotient does. *)
Definition decimal_to_double (m e10 : Z) : float :=
  if m =? 0 then 0%float
  else if 0 <=? e10 then SF2Prim (binary_normalize prec emax (m * 10 ^ e10) 0 false)
  else
    let d := 10 ^ (- e10) in
    let s := Z.max 0 (Z.log2 d - Z.log2 m + prec + 3) in
    let q := (m * 2 ^ s) / d in
    let r := (m * 2 ^ s) mod d in
    SF2Prim (binary_normalize prec emax (2 * q + (if r =? 0 then 0 else 1)) (- s - 1) false).

(** The exponent part that [strtod] accepts at the head of [s]: a marker, an
    optional sign and at least one digit; [None] when [s] does not start
    with one. *)
Definition strtod_exponent (s : list ascii) : option Z :=
  match s with
  | m :: r =>
      if is_char m "e" || is_char m "E" then
        let '(neg, r1) :=
          match r with
          | c :: r' => if is_char c "-" then (true, r')
                       else if is_char c "+" then (false, r') else (false, r)
          | [] => (false, r)
          end in
        match fst (span isdigit r1) with
        | [] => None
        | ds => Some (if neg : bool then - digits_val ds else digits_val ds)
        end
      else None
  | [] => None
  end.

(** [strtod] of the C library on a decimal literal without sign or leading
    space, the only texts the lexer passes to it: the longest prefix of the
    form digits [. digits] [exponent] is converted, correctly rounded; a
    text with no digit in its mantissa converts to [0.0]. *)
Definition strtod (s : list ascii) : float :=
  let '(ip, r) := span isdigit s in
  let '(fp, r1) :=
    match r with
    | c :: r' => if is_char c "." then span isdigit r' else ([], r)
    | [] => ([], r)
    end in
  match ip ++ fp with
  | [] => 0%float
  | ds =>
      let e := match strtod_exponent r1 with Some e => e | None => 0 end in
      decimal_to_double (digits_val ds) (e - Z.of_nat (length fp))
  end.

(** ** Tokens and the lexer *)

Inductive TokType : Type :=
| Number | Ident | LParen | RParen | Comma | Plus | Minus | Star | Slash | Caret
| Assign | End.

#[global] Instance TokType_eq_dec : EqDecision TokType.
Proof. solve_decision. Defined.

Module Token.
Record Token : Type := mk { t : TokType; value : float; text : string }.
End Token.
Abbreviation Token := Token.Token.

Definition punct (ty : TokType) (txt : string) : Token := Token.mk ty 0%float txt.

Module Lexer.

Definition isIdentStart (c : ascii) : bool := isalpha c || is_char c "_".
Definition isIdentChar (c : ascii) : bool := isalnum c || is_char c "_".

(** The digits and the dot of a number, after its first character:
    [while (i<n && (isdigit(s[i]) || (!seenDot && s[i]=='.')))]. *)
Fixpoint mantissa (seenDot : bool) (s : list ascii) : list ascii * list ascii :=
  match s with
  | [] => ([], [])
  | c :: r =>
      if isdigit c || (negb seenDot && is_char c ".") then
        let '(a, b) := mantissa (seenDot || is_char c ".") r in (c :: a, b)
      else ([], s)
  end.

(** The exponent of a number: the marker, an optional sign and the digits,
    consumed only when [any] digit was seen; otherwise nothing is. *)
Definition exponent (s : list ascii) : list ascii * list ascii :=
  match s with
  | m :: r =>
      if is_char m "e" || is_char m "E" then
        let '(sign, r1) :=
          match r with
          | c :: r' => if is_char c "+" || is_char c "-" then ([c], r') else ([], r)
          | [] => ([], r)
          end in
        match span isdigit r1 with
        | ([], _) => ([], s)
        | (ds, r2) => (m :: sign ++ ds, r2)
        end
      else ([], s)
  | [] => ([], [])
  end.

(** The token that starts with the character [c], followed by [r]. *)
Definition scan (c : ascii) (r : list ascii) : result (Token * list ascii) :=
  if isdigit c || is_char c "." then
    let '(m, r1) := mantissa (is_char c ".") r in
    let '(e, r2) := exponent r1 in
    Ok (Token.mk Number (strtod (c :: m ++ e)) "", r2)
  else if isIdentStart c then
    let '(a, r1) := span isIdentChar r in
    Ok (Token.mk Ident 0%float (string_of_list_ascii (c :: a)), r1)
  else if is_char c "(" then Ok (punct LParen "(", r)
  else if is_char c ")" then Ok (punct RParen ")", r)
  else if is_char c "," then Ok (punct Comma ",", r)
  else if is_char c "+" then Ok (punct Plus "+", r)
  else if is_char c "-" then Ok (punct Minus "-", r)
  else if is_char c "*" then Ok (punct Star "*", r)
  else if is_char c "/" then Ok (punct Slash "/", r)
  else if is_char c "^" then Ok (punct Caret "^", r)
  else if is_char c "=" then Ok (punct Assign "=", r)
  else Err (LexError c).

(** [next]: the token at the cursor and the text after it. The lexer's
    state is the suffix [s[i..n)]: [i] only moves forward and nothing
    before it is read again. *)
Definition next (s : list ascii) : result (Token * list ascii) :=
  match snd (span isspace s) with
  | [] => Ok (punct End "", [])
  | c :: r => scan c r
  end.

End Lexer.

Definition chars (s : string) : list ascii := list_ascii_of_string s.

(** ** Shunting-yard to RPN *)

Record OpInfo : Type := { prec : Z; rightAssoc : bool; arity : Z }.

(** The table [OP]; keys are distinct, so the first match is the entry. *)
Definition OP : list (string * OpInfo) :=
  [ ("+", Build_OpInfo 1 false 2); ("-", Build_OpInfo 1 false 2);
    ("*", Build_OpInfo 2 false 2); ("/", Build_OpInfo 2 false 2);
    ("^", Build_OpInfo 3 true 2);
    ("u-", Build_OpInfo 4 true 1) ]%string.

Fixpoint find {V : Type} (table : list (string * V)) (key : string) : option V :=
  match table with
  | [] => None
  | (k, v) :: rest => if String.eqb k key then Some v else find rest key
  end.

Module Node.
Inductive Kind : Type := KNum | KVar | KOp | KFunc | KArgSep | KAssign.
Record Node : Type := mk { k : Kind; val : float; text : string; argc : Z }.
End Node.
Abbreviation Node := Node.Node.
Abbreviation KNum := Node.KNum.
Abbreviation KVar := Node.KVar.
Abbreviation KOp := Node.KOp.
Abbreviation KFunc := Node.KFunc.
Abbreviation KArgSep := Node.KArgSep.
Abbreviation KAssign := Node.KAssign.

#[global] Instance Kind_eq_dec : EqDecision Node.Kind.
Proof. solve_decision. Defined.

Definition is_kind (n : Node) (kd : Node.Kind) : bool := bool_decide (Node.k n = kd).

(** The aggregate initialisers of the source: missing members are zero. *)
Definition num_node (v : float) : Node := Node.mk KNum v "" 0.
Definition var_node (name : string) : Node := Node.mk KVar 0%float name 0.
Definition op_node (sym : string) : Node := Node.mk KOp 0%float sym 0.
Definition argsep_node : Node := Node.mk KArgSep 0%float "" 0.
Definition assign_node : Node := Node.mk KAssign 0%float "" 0.

Definition isOpTok (t : TokType) : bool :=
  match t with
  | Plus | Minus | Star | Slash | Caret => true
  | _ => false
  end.

Definition is_lparen (n : Node) : bool :=
  is_kind n KOp && String.eqb (Node.text n) "(".

(** The parser state: the output vector (in order), the operator stack
    (its head is [ops.back()]) and the previous token's type. *)
Record Shunt : Type := { output : list Node; ops : list Node; prev : TokType }.

(** [while (!ops.empty() && !stop(ops.back())) { output.push_back(ops.back());
    ops.pop_back(); }] with the stop test of the caller. *)
Fixpoint pop_until (stop : Node -> bool) (output ops : list Node)
  : list Node * list Node :=
  match ops with
  | [] => (output, [])
  | top :: below =>
      if stop top then (output, ops) else pop_until stop (output ++ [top]) below
  end.

Definition symbol_of (t : TokType) : string :=
  match t with
  | Plus => "+" | Minus => "-" | Star => "*" | Slash => "/" | _ => "^"
  end.

(** [unary]: the test on the previous token that turns a minus into "u-". *)
Definition unary (prev : TokType) : bool :=
  bool_decide (prev = End) || bool_decide (prev = LParen) || bool_decide (prev = Comma)
  || isOpTok prev || bool_decide (prev = Assign).

Definition operator_symbol (t prev : TokType) : string :=
  let sym := symbol_of t in
  if unary prev && String.eqb sym "-" then "u-"%string else sym.

(** [OP.at(sym)]; every symbol the parser asks for is in the table. *)
Definition OP_at (sym : string) : OpInfo :=
  match find OP sym with
  | Some oi => oi
  | None => Build_OpInfo 0 false 0
  end.

(** The test of the operator loop: the top is popped when it is an operator
    of the table that binds at least as tightly as the incoming one
    (strictly tighter when the incoming one is right-associative). *)
Definition yields_to (oi : OpInfo) (top : Node) : bool :=
  (is_kind top KOp || is_kind top KFunc)
  && match (if is_kind top KOp then find OP (Node.text top) else None) with
     | Some ti => if rightAssoc oi then prec oi <? prec ti else prec oi <=? prec ti
     | None => false
     end.

(** One turn of the [for] loop of [toRPN] on the token [tok]. *)
Definition shunt_step (tok : Token) (st : Shunt) : result Shunt :=
  let ty := Token.t tok in
  let out := output st in
  match ty with
  | Number => Ok {| output := out ++ [num_node (Token.value tok)]; ops := ops st; prev := ty |}
  | Ident => Ok {| output := out ++ [var_node (Token.text tok)]; ops := ops st; prev := ty |}
  | Comma =>
      let '(out', ops') :=
        pop_until (fun n => is_kind n KArgSep || is_lparen n) out (ops st) in
      match ops' with
      | [] => Err MisplacedSeparator
      | _ => Ok {| output := out' ++ [argsep_node]; ops := ops'; prev := ty |}
      end
  | LParen => Ok {| output := out; ops := op_node "(" :: ops st; prev := ty |}
  | RParen =>
      let '(out', ops') := pop_until is_lparen out (ops st) in
      match ops' with
      | [] => Err UnbalancedParens
      | _ :: below =>
          match below with
          | f :: below' =>
              if is_kind f KFunc
              then Ok {| output := out' ++ [f]; ops := below'; prev := ty |}
              else Ok {| output := out'; ops := below; prev := ty |}
          | [] => Ok {| output := out'; ops := below; prev := ty |}
          end
      end
  | Assign => Ok {| output := out; ops := assign_node :: ops st; prev := ty |}
  | Plus | Minus | Star | Slash | Caret =>
      let sym := operator_symbol ty (prev st) in
      let oi := OP_at sym in
      let '(out', ops') := pop_until (fun n => negb (yields_to oi n)) out (ops st) in
      Ok {| output := out'; ops := op_node sym :: ops'; prev := ty |}
  | End => Err UnexpectedToken
  end.

(** The closing loop of [toRPN]: the stack is emptied into the output; a
    left parenthesis still on it is an error. *)
Fixpoint drain (output ops : list Node) : result (list Node) :=
  match ops with
  | [] => Ok output
  | top :: below =>
      if is_lparen top then Err UnbalancedParens else drain (output ++ [top]) below
  end.

(** The [for] loop of [toRPN]: tokens are read one at a time, so an error of
    the parser on a token comes before an error of the lexer further on.
    Every token but [End] consumes a character: [fuel] above the length of
    the text is never used up. *)
Fixpoint toRPN_loop (fuel : nat) (s : list ascii) (st : Shunt) : result (list Node) :=
  match fuel with
  | O => Err OutOfFuel
  | S fuel' =>
      '(tok, rest) ← Lexer.next s;
      match Token.t tok with
      | End => drain (output st) (ops st)
      | _ => st' ← shunt_step tok st; toRPN_loop fuel' rest st'
      end
  end.

Definition toRPN (line : list ascii) : result (list Node) :=
  toRPN_loop (S (length line)) line {| output := []; ops := []; prev := End |}.

(** ** The functions of <cmath> *)

Module cmath.
(** What the program calls from the C mathematical library, as an
    interface: [fabs] and [sqrt] are exact in IEEE-754, the accuracy of the
    others is the library's. *)
Class Lib : Type := {
  sin : float -> float;  cos : float -> float;  tan : float -> float;
  asin : float -> float; acos : float -> float; atan : float -> float;
  sqrt : float -> float; cbrt : float -> float; exp : float -> float;
  fabs : float -> float; floor : float -> float; ceil : float -> float;
  round : float -> float; log : float -> float; log10 : float -> float;
  pow : float -> float -> float
}.
End cmath.

(** ** The environment and the evaluator *)

Record Env : Type := { vars : gmap string float; precision : Z }.

(** Code that runs against the one mutable [Env]: it returns an outcome and
    the environment as it is left, also when it throws. *)
Definition Eval (A : Type) : Type := Env -> result A * Env.

Definition eval_ret {A : Type} (a : A) : Eval A := fun env => (Ok a, env).
Definition eval_bind {A B : Type} (m : Eval A) (f : A -> Eval B) : Eval B :=
  fun env =>
    match m env with
    | (Ok a, env') => f a env'
    | (Err e, env') => (Err e, env')
    end.
Definition throw {A : Type} (e : EvalError) : Eval A := fun env => (Err e, env).
Definition lift {A : Type} (r : result A) : Eval A := fun env => (r, env).
(** [env.vars.find(name)] *)
Definition vars_find (name : string) : Eval (option float) :=
  fun env => (Ok (vars env !! name), env).
(** [env.vars[name] = v] *)
Definition vars_set (name : string) (v : float) : Eval unit :=
  fun env => (Ok tt, {| vars := <[name := v]> (vars env); precision := precision env |}).

#[global] Instance eval_mret : MRet Eval := fun _ a => eval_ret a.
#[global] Instance eval_mbind : MBind Eval := fun _ _ f m => eval_bind m f.

Section Evaluator.
Context {libm : cmath.Lib}.

(** The constructor [Env()]. *)
Definition Env_new : Env :=
  {| vars := <["e" := cmath.exp 1%float]> (<["pi" := cmath.acos (-1)%float]> ∅);
     precision := 10 |}.

Definition UF : list (string * (float -> float)) :=
  [ ("sin", cmath.sin); ("cos", cmath.cos); ("tan", cmath.tan);
    ("asin", cmath.asin); ("acos", cmath.acos); ("atan", cmath.atan);
    ("sqrt", cmath.sqrt); ("cbrt", cmath.cbrt); ("exp", cmath.exp);
    ("abs", cmath.fabs); ("floor", cmath.floor); ("ceil", cmath.ceil);
    ("round", cmath.round);
    ("ln", cmath.log); ("log", cmath.log); ("log10", cmath.log10) ]%string.

Definition BF : list (string * (float -> float -> float)) :=
  [ ("pow", cmath.pow) ]%string.

(** [applyOp(op, st)]; the head of [st] is [st.back()]. The source reads
    [st.back()] and [st[st.size()-2]] without a test: [evalRPN] has checked
    the size before the call, and a shorter stack is reported here as the
    underflow it would be. *)
Definition applyOp (op : string) (st : list float) : result float :=
  if String.eqb op "u-" then
    match st with b :: _ => Ok (- b)%float | _ => Err (StackUnderflow op) end
  else
    match st with
    | b :: a :: _ =>
        if String.eqb op "+" then Ok (a + b)%float
        else if String.eqb op "-" then Ok (a - b)%float
        else if String.eqb op "*" then Ok (a * b)%float
        else if String.eqb op "/" then
          if (b =? 0)%float then Err DivisionByZero else Ok (a / b)%float
        else if String.eqb op "^" then Ok (cmath.pow a b)
        else Err (UnknownOperator op)
    | _ => Err (StackUnderflow op)
    end.

(** The body of the evaluation loops (lines 178-204 and 213-239 of the
    source are the same text): one node against the value stack. *)
Definition eval_node (n : Node) (st : list float) : Eval (list float) :=
  match Node.k n with
  | Node.KNum => eval_ret (Node.val n :: st)
  | Node.KVar =>
      match find UF (Node.text n), find BF (Node.text n) with
      | Some f, _ =>
          match st with
          | [] => throw (MissingArgument (Node.text n))
          | a :: st' => eval_ret (f a :: st')
          end
      | None, Some g =>
          match st with
          | b :: a :: st' => eval_ret (g a b :: st')
          | _ => throw (MissingArgument (Node.text n))
          end
      | None, None =>
          itV ← vars_find (Node.text n);
          match itV with
          | None => throw (UndefinedVariable (Node.text n))
          | Some v => eval_ret (v :: st)
          end
      end
  | Node.KOp =>
      let need := if String.eqb (Node.text n) "u-" then 1%nat else 2%nat in
      if (length st <? need)%nat then throw (StackUnderflow (Node.text n))
      else res ← lift (applyOp (Node.text n) st);
           eval_ret (res :: drop need st)
  | _ => eval_ret st
  end.

Fixpoint eval_nodes (ns : list Node) (st : list float) : Eval (list float) :=
  match ns with
  | [] => eval_ret st
  | n :: rest => st' ← eval_node n st; eval_nodes rest st'
  end.

Definition kind_at (rpn : list Node) (i : nat) (kd : Node.Kind) : bool :=
  match rpn !! i with
  | Some n => is_kind n kd
  | None => false
  end.

Definition evalRPN (rpn : list Node) : Eval float :=
  let hasAssign := existsb (fun n => is_kind n KAssign) rpn in
  if hasAssign then
    if (length rpn <? 3)%nat || negb (kind_at rpn 0 KVar) || negb (kind_at rpn 1 KAssign)
    then throw InvalidAssignment
    else
      let name := match rpn !! 0%nat with Some n => Node.text n | None => ""%string end in
      let rhs := drop 2 rpn in
      st ← eval_nodes rhs [];
      match st with
      | [v] => vars_set name v;; eval_ret v
      | _ => throw (InvalidExpression true)
      end
  else
    st ← eval_nodes rpn [];
    match st with
    | [v] => eval_ret v
    | _ => throw (InvalidExpression false)
    end.

End Evaluator.

(** ** Rewriting of function calls *)

(** The inner [for] loop of [preprocessFuncCalls], from the parenthesis of
    the call on: the arguments, and the text after the closing parenthesis.
    [depth] is at least 1 after the first character, so running off the end
    of the text leaves [depth != 0], the source's error: [None]. *)
Fixpoint call_args (s : list ascii) (depth : Z) (args : list (list ascii))
    (cur : list ascii) : option (list (list ascii) * list ascii) :=
  match s with
  | [] => None
  | c :: r =>
      if is_char c "(" then
        call_args r (depth + 1) args (if 1 <? depth + 1 then cur ++ [c] else cur)
      else if is_char c ")" then
        if depth - 1 =? 0 then Some (args ++ [cur], r)
        else call_args r (depth - 1) args (cur ++ [c])
      else if is_char c "," && (depth =? 1) then call_args r depth (args ++ [cur]) []
      else call_args r depth args (cur ++ [c])
  end.

(** [for (a...) { out += args[a]; if (a+1 < args.size()) out += " "; }] *)
Fixpoint join_args (args : list (list ascii)) : list ascii :=
  match args with
  | [] => []
  | [a] => a
  | a :: rest => a ++ " "%char :: join_args rest
  end.

(** The outer loop, on the text from [i] on and the text written so far.
    Every turn consumes a character: [fuel] up to the length of the text is
    never used up. *)
Fixpoint preprocess_loop (fuel : nat) (s out : list ascii) : result (list ascii) :=
  match s with
  | [] => Ok out
  | c :: r =>
      match fuel with
      | O => Err OutOfFuel
      | S fuel' =>
          let copy := preprocess_loop fuel' r (out ++ [c]) in
          if isalpha c || is_char c "_" then
            let '(name, after) := span Lexer.isIdentChar r in
            let at_k := snd (span isspace after) in
            match at_k with
            | p :: _ =>
                if is_char p "(" then
                  match call_args at_k 0 [] [] with
                  | None => Err UnbalancedCallParens
                  | Some (args, rest) =>
                      preprocess_loop fuel' rest
                        (out ++ "("%char :: join_args args ++ chars ") " ++ c :: name)
                  end
                else copy
            | [] => copy
            end
          else copy
      end
  end.

Definition preprocessFuncCalls (line : list ascii) : result (list ascii) :=
  preprocess_loop (length line) line [].

(** ** The pipeline *)

(** The [try] block of [main]: one line against the environment. *)
Definition evaluate {libm : cmath.Lib} (line : string) : Eval float :=
  fun env =>
    match preprocessFuncCalls (chars line) with
    | Err e => (Err e, env)
    | Ok pre =>
        match toRPN pre with
        | Err e => (Err e, env)
        | Ok rpn => evalRPN rpn env
        end
    end.

(** ** The read loop of [main]

    What a line does to the environment; the texts written to [cout] are
    left out. *)

Fixpoint is_prefix (p s : list ascii) : bool :=
  match p, s with
  | [], _ => true
  | c :: p', d :: s' => Ascii.eqb c d && is_prefix p' s'
  | _ :: _, [] => false
  end.

Definition INT_MAX : Z := 2147483647.
Definition INT_MIN : Z := -2147483648.

(** [iss >> p] for an [int p] on a fresh stream of the text [s]: spaces are
    skipped, then a sign and the digits that follow are read; the
    extraction fails without a digit, and when the number is not an [int]. *)
Definition extract_int (s : list ascii) : option Z :=
  let s1 := snd (span isspace s) in
  let '(neg, s2) :=
    match s1 with
    | c :: r => if is_char c "-" then (true, r)
                else if is_char c "+" then (false, r) else (false, s1)
    | [] => (false, s1)
    end in
  match fst (span isdigit s2) with
  | [] => None
  | ds =>
      let v := if neg : bool then - digits_val ds else digits_val ds in
      if (INT_MIN <=? v) && (v <=? INT_MAX) then Some v else None
  end.

Definition is_line (line : list ascii) (command : string) : bool :=
  bool_decide (line = chars command).

(** One turn of the [while] loop of [main] on the line read by [getline]:
    [None] is [break], [Some env] is the environment the next turn
    starts with. *)
Definition main_step {libm : cmath.Lib} (line : list ascii) (env : Env) : option Env :=
  let line := trim line in
  match line with
  | [] => Some env
  | _ =>
      if is_line line ":quit" then None
      else if is_line line ":help" then Some env
      else if is_line line ":vars" then Some env
      else if is_line line ":clear" then
        Some {| vars := <["e" := cmath.exp 1%float]> (<["pi" := cmath.acos (-1)%float]> ∅);
                precision := precision env |}
      else if is_prefix (chars ":precision") line then
        match extract_int (drop 10 line) with
        | Some p =>
            if (0 <=? p) && (p <=? 30)
            then Some {| vars := vars env; precision := p |}
            else Some env
        | None => Some env
        end
      else Some (snd (evaluate (string_of_list_ascii line) env))
  end.

(** The loop on the lines of the input, to its end or to [:quit]. *)
Fixpoint main_loop {libm : cmath.Lib} (lines : list (list ascii)) (env : Env) : Env :=
  match lines with
  | [] => env
  | line :: rest =>
      match main_step line env with
      | Some env' => main_loop rest env'
      | None => env
      end
  end.

Definition main {libm : cmath.Lib} (lines : list (list ascii)) : Env :=
  main_loop lines Env_new.

(** ** A library to run examples with

    [fabs] and [sqrt] are the primitive operations and [pow] multiplies for
    a whole exponent; the other functions have no model here and return
    NaN. *)

Fixpoint pow_nat (a : float) (n : nat) : float :=
  match n with
  | O => 1%float
  | S n' => (a * pow_nat a n')%float
  end.

Definition pow_whole (a b : float) : float :=
  match Prim2SF b with
  | S754_zero _ => 1%float
  | S754_finite sign m e =>
      let whole := if 0 <=? e then true else Z.pos m mod 2 ^ (- e) =? 0 in
      if whole then
        let n := Z.to_nat (if 0 <=? e then Z.pos m * 2 ^ e else Z.pos m / 2 ^ (- e)) in
        if sign then (1 / pow_nat a n)%float else pow_nat a n
      else nan
  | _ => nan
  end.

Definition sample_libm : cmath.Lib :=
  {| cmath.sin := fun _ => nan; cmath.cos := fun _ => nan; cmath.tan := fun _ => nan;
     cmath.asin := fun _ => nan; cmath.acos := fun _ => nan; cmath.atan := fun _ => nan;
     cmath.sqrt := PrimFloat.sqrt; cmath.cbrt := fun _ => nan; cmath.exp := fun _ => nan;
     cmath.fabs := PrimFloat.abs; cmath.floor := fun _ => nan; cmath.ceil := fun _ => nan;
     cmath.round := fun _ => nan; cmath.log := fun _ => nan; cmath.log10 := fun _ => nan;
     cmath.pow := pow_whole |}.

(** ** Expressions, for the statements about precedence *)

(** The token sequence that the loop of [toRPN] reads from a text, as a
    list: [Lexer.next] is called until it returns [End]. *)
Fixpoint tokenize_loop (fuel : nat) (s : list ascii) : result (list Token) :=
  match fuel with
  | O => Err OutOfFuel
  | S fuel' =>
      '(tok, rest) ← Lexer.next s;
      match Token.t tok with
      | End => Ok []
      | _ => toks ← tokenize_loop fuel' rest; Ok (tok :: toks)
      end
  end.

Definition tokenize (s : list ascii) : result (list Token) :=
  tokenize_loop (S (length s)) s.

(** The loop of [toRPN] on tokens already read. *)
Fixpoint shunt_all (toks : list Token) (st : Shunt) : result Shunt :=
  match toks with
  | [] => Ok st
  | tok :: rest => st' ← shunt_step tok st; shunt_all rest st'
  end.

Inductive binop : Type := Add | Sub | Mul | Div | Pow.

(** An arithmetic expression without variables, as a tree; [EParen] is a
    pair of parentheses of the text. *)
Inductive expr : Type :=
| ENum (v : float)
| EParen (e : expr)
| ENeg (e : expr)
| EBin (op : binop) (a b : expr).

Definition binop_symbol (op : binop) : string :=
  match op with
  | Add => "+" | Sub => "-" | Mul => "*" | Div => "/" | Pow => "^"
  end.

Definition binop_token (op : binop) : Token :=
  match op with
  | Add => punct Plus "+" | Sub => punct Minus "-" | Mul => punct Star "*"
  | Div => punct Slash "/" | Pow => punct Caret "^"
  end.

(** The tokens of an expression, in the order of the text. *)
Fixpoint tokens (e : expr) : list Token :=
  match e with
  | ENum v => [Token.mk Number v ""]
  | EParen e1 => punct LParen "(" :: tokens e1 ++ [punct RParen ")"]
  | ENeg e1 => punct Minus "-" :: tokens e1
  | EBin op a b => tokens a ++ binop_token op :: tokens b
  end.

(** The postfix form of an expression. *)
Fixpoint postfix (e : expr) : list Node :=
  match e with
  | ENum v => [num_node v]
  | EParen e1 => postfix e1
  | ENeg e1 => postfix e1 ++ [op_node "u-"]
  | EBin op a b => postfix a ++ postfix b ++ [op_node (binop_symbol op)]
  end.

(** The value of an expression: each operator applied to the values of its
    operands, the left one first. *)
Definition apply_binop {libm : cmath.Lib} (op : binop) (a b : float) : result float :=
  match op with
  | Add => Ok (a + b)%float
  | Sub => Ok (a - b)%float
  | Mul => Ok (a * b)%float
  | Div => if (b =? 0)%float then Err DivisionByZero else Ok (a / b)%float
  | Pow => Ok (cmath.pow a b)
  end.

Fixpoint value {libm : cmath.Lib} (e : expr) : result float :=
  match e with
  | ENum v => Ok v
  | EParen e1 => value e1
  | ENeg e1 => v ← value e1; Ok (- v)%float
  | EBin op a b => va ← value a; vb ← value b; apply_binop op va vb
  end.

(** A reading of operator precedence: how tightly the unary minus and [^]
    bind; [* /] bind at 2 and [+ -] at 1 in every reading, a number or a
    parenthesis at 5. *)
Record precedence : Type := { neg_level : Z; pow_level : Z }.

(** The table [OP]: unary minus above [^]. *)
Definition code_precedence : precedence := {| neg_level := 4; pow_level := 3 |}.
(** The reading of C2: [^] highest, unary minus next. *)
Definition standard_precedence : precedence := {| neg_level := 3; pow_level := 4 |}.

Definition binop_level (g : precedence) (op : binop) : Z :=
  match op with
  | Add | Sub => 1
  | Mul | Div => 2
  | Pow => pow_level g
  end.

Definition level (g : precedence) (e : expr) : Z :=
  match e with
  | ENum _ | EParen _ => 5
  | ENeg _ => neg_level g
  | EBin op _ _ => binop_level g op
  end.

(** [reads_as g e]: the text of [e], without further parentheses, is read
    back as [e] under [g]. The operand of a unary minus binds at least as
    tightly as the minus; [+ - * /] group to the left, so their right
    operand binds strictly tighter; [^] groups to the right, so its left
    operand binds strictly tighter, and its right operand is another power or
    a unary minus (as in 2^-1). *)
Fixpoint reads_as (g : precedence) (e : expr) : Prop :=
  match e with
  | ENum _ => True
  | EParen e1 => reads_as g e1
  | ENeg e1 => reads_as g e1 /\ neg_level g <= level g e1
  | EBin Pow a b =>
      reads_as g a /\ reads_as g b /\ pow_level g < level g a /\ 3 <= level g b
  | EBin op a b =>
      reads_as g a /\ reads_as g b
      /\ binop_level g op <= level g a /\ binop_level g op < level g b
  end.

#[global] Instance reads_as_dec (g : precedence) (e : expr) : Decision (reads_as g e).
Proof.
  induction e as [v|e IH|e IH|op a IHa b IHb]; cbn [reads_as];
    [|exact IH| |destruct op]; apply _.
Defined.

(** ** Vocabulary of the statements *)

Definition is_marker (c : ascii) : bool := is_char c "e" || is_char c "E".
Definition is_sign (c : ascii) : bool := is_char c "+" || is_char c "-".

(** A text starts with an exponent: a marker, at most one sign, a digit. *)
Definition starts_exponent (s : list ascii) : Prop :=
  exists (m : ascii) (sign : list ascii) (d : ascii) (r : list ascii),
    s = m :: sign ++ d :: r /\ is_marker m = true /\
    (sign = [] \/ exists c, sign = [c] /\ is_sign c = true) /\ isdigit d = true.

(** The texts [args], with the commas that separated them put back. *)
Fixpoint commas (args : list (list ascii)) : list ascii :=
  match args with
  | [] => []
  | [a] => a
  | a :: rest => a ++ ","%char :: commas rest
  end.

(** The test of [preprocessFuncCalls] on the character at [i]. *)
Definition starts_name (c : ascii) : bool := isalpha c || is_char c "_".

(** After a name that starts before [r]: is the next character that is not
    a space a left parenthesis? *)
Definition call_follows (r : list ascii) : bool :=
  match snd (span isspace (snd (span Lexer.isIdentChar r))) with
  | p :: _ => is_char p "("
  | [] => false
  end.

Definition head_not (p : ascii -> bool) (s : list ascii) : Prop :=
  match s with
  | c :: _ => p c = false
  | [] => True
  end.

Definition head_is (ty : TokType) (toks : list Token) : bool :=
  match toks with
  | tok :: _ => bool_decide (Token.t tok = ty)
  | [] => false
  end.

(** Token sequences without the syntax of a call: no left parenthesis
    after an identifier or a number, and no identifier after a number. *)
Fixpoint plain (toks : list Token) : bool :=
  match toks with
  | [] => true
  | tok :: rest =>
      match Token.t tok with
      | Ident => negb (head_is LParen rest) && plain rest
      | Number => negb (head_is LParen rest) && negb (head_is Ident rest) && plain rest
      | _ => plain rest
      end
  end.

(** An operator of the table [OP] that binds at least as tightly as [p]. *)
Definition operator_from (p : Z) (n : Node) : Prop :=
  exists sym ti, n = op_node sym /\ find OP sym = Some ti /\ p <= prec ti.

(** The precedence of the operator on top of the stack; 0 for an empty
    stack, a parenthesis or an Assignment marker. *)
Definition top_prec (ops : list Node) : Z :=
  match ops with
  | top :: _ =>
      if is_kind top KOp
      then match find OP (Node.text top) with Some ti => prec ti | None => 0 end
      else 0
  | [] => 0
  end.

(** What may lie under an expression of level [l] without being popped
    by its operators: anything below [+ - * /], anything up to [^] and the
    unary minus, which group to the right. *)
Definition entry (l : Z) : Z := if l <=? 2 then l - 1 else l.

Definition no_func (ops : list Node) : Prop :=
  Forall (fun n => is_kind n KFunc = false) ops.

Definition binop_info (op : binop) : OpInfo := OP_at (binop_symbol op).

(** The errors of the loop are those of its nodes. *)
Definition loop_error (e : EvalError) : bool :=
  match e with
  | MissingArgument _ | UndefinedVariable _ | StackUnderflow _ | DivisionByZero
  | UnknownOperator _ => true
  | _ => false
  end.

(** Nodes with no case in the loop are passed over. *)
Definition inert (n : Node) : bool :=
  is_kind n KFunc || is_kind n KArgSep || is_kind n KAssign.

Definition assignment_tokens (name : string) (e : expr) : list Token :=
  Token.mk Ident 0%float name :: punct Assign "=" :: tokens e.

(** The test on Assignment nodes at the head of [evalRPN], and the shape
    that passes its guard. *)
Definition hasAssign (rpn : list Node) : bool :=
  existsb (fun n => is_kind n KAssign) rpn.

Definition assignment_head (rpn : list Node) : bool :=
  negb ((length rpn <? 3)%nat || negb (kind_at rpn 0 KVar) || negb (kind_at rpn 1 KAssign)).

(** The shape [Variable, Assignment, rhs...] read as excluding a further
    Assignment node among the rhs nodes. *)
Definition exact_assignment_shape (rpn : list Node) : bool :=
  match rpn with
  | n0 :: n1 :: rhs => is_kind n0 KVar && is_kind n1 KAssign && negb (hasAssign rhs)
  | _ => false
  end.

(** A character that is not a space at either end of a text. *)
Definition no_space_ends (t : list ascii) : Prop :=
  head_not isspace t /\ head_not isspace (rev t).

(** The characters a token can start with. *)
Definition starts_token (c : ascii) : bool :=
  isdigit c || is_char c "." || Lexer.isIdentStart c
  || existsb (is_char c) (chars "(),+-*/^=").

(** The nodes of a postfix program: numbers, names, separators,
    Assignment markers and the operators of the table [OP]. *)
Definition rpn_node (n : Node) : bool :=
  match Node.k n with
  | Node.KOp => match find OP (Node.text n) with Some _ => true | None => false end
  | Node.KFunc => false
  | _ => true
  end.

(** The nodes of the operator stack: those, and left parentheses. *)
Definition stack_node (n : Node) : bool := rpn_node n || is_lparen n.

(** The errors a line can be answered with. *)
Definition reported (e : EvalError) : bool :=
  match e with
  | UnexpectedToken | UnknownOperator _ | OutOfFuel => false
  | _ => true
  end.

Definition shunt_inv (st : Shunt) : Prop :=
  Forall (fun n => rpn_node n = true) (output st)
  /\ Forall (fun n => stack_node n = true) (ops st).

(** The left parentheses waiting on the operator stack. *)
Definition open_parens (ops : list Node) : nat := length (List.filter is_lparen ops).

(** What is pushed on the operator stack: operators, left parentheses
    (both of kind [KOp]) and Assignment markers. *)
Definition pushed (n : Node) : bool := is_kind n KOp || is_kind n KAssign.

(** The nesting of parentheses and commas in a sequence of tokens, read
    from [depth] open parentheses on: a right parenthesis needs an open one,
    a comma needs to be inside one, and none may stay open. *)
Fixpoint nesting (toks : list Token) (depth : nat) : result unit :=
  match toks with
  | [] => match depth with O => Ok tt | S _ => Err UnbalancedParens end
  | tok :: rest =>
      match Token.t tok with
      | LParen => nesting rest (S depth)
      | RParen =>
          match depth with O => Err UnbalancedParens | S d => nesting rest d end
      | Comma =>
          match depth with O => Err MisplacedSeparator | S _ => nesting rest depth end
      | _ => nesting rest depth
      end
  end.

(** An argument of a call without parenthesis or comma of its own. *)
Definition flat (a : list ascii) : Prop :=
  Forall (fun c => is_char c "(" || is_char c ")" || is_char c "," = false) a.

(** The tokens of a rewritten call: the argument text in parentheses,
    then the name. *)
Definition call_tokens (name : string) (e : expr) : list Token :=
  punct LParen "(" :: tokens e ++ [punct RParen ")"; Token.mk Ident 0%float name].

(** The text of the expression starts with a minus sign. *)
Fixpoint starts_minus (e : expr) : bool :=
  match e with
  | ENum _ | EParen _ => false
  | ENeg _ => true
  | EBin _ a _ => starts_minus a
  end.

(** The tokens of a rewritten call with two arguments: the comma has
    become a space, so the tokens of the arguments follow each other. *)
Definition call2_tokens (name : string) (a b : expr) : list Token :=
  punct LParen "(" :: tokens a ++ tokens b
    ++ [punct RParen ")"; Token.mk Ident 0%float name].

(** The tokens of a line that closes a parenthesis right after the
    assignment sign: ( name = ) and the text of an expression. *)
Definition target_tokens (name : string) (e : expr) : list Token :=
  [punct LParen "("; Token.mk Ident 0%float name; punct Assign "="; punct RParen ")"]
    ++ tokens e.

(** * Properties *)

(** Membership in a character class is a matter of the code: a case
    analysis on the eight bits decides it. *)
Ltac by_char c := destruct c as [[] [] [] [] [] [] [] []]; try discriminate; try reflexivity.

(** Equations between concatenations. *)
Ltac list_norm := repeat rewrite <- ?app_assoc, <- ?app_comm_cons; try reflexivity.

(** ** The lexer: exponents (C9) *)

Lemma span_app (p : ascii -> bool) (s : list ascii) :
  fst (span p s) ++ snd (span p s) = s.
Proof.
  induction s as [|c r IH]; simpl; [reflexivity|].
  destruct (p c); simpl; [|reflexivity].
  destruct (span p r) as [a b]; simpl in *. now rewrite IH.
Qed.

Lemma sign_not_digit (c : ascii) : is_sign c = true -> isdigit c = false.
Proof.
  unfold is_sign, is_char. intros H. apply orb_true_iff in H.
  destruct H as [H|H]; apply Ascii.eqb_eq in H; subst c; reflexivity.
Qed.

Lemma exponent_taken (m : ascii) (sign : list ascii) (d : ascii) (r : list ascii) :
  is_marker m = true ->
  (sign = [] \/ exists c, sign = [c] /\ is_sign c = true) ->
  isdigit d = true ->
  Lexer.exponent (m :: sign ++ d :: r)
  = (m :: sign ++ d :: fst (span isdigit r), snd (span isdigit r)).
Proof.
  intros Hm Hsign Hd. unfold Lexer.exponent. fold (is_marker m). rewrite Hm.
  destruct Hsign as [-> | (c & -> & Hc)]; simpl.
  - fold (is_sign d).
    destruct (is_sign d) eqn:E; [apply sign_not_digit in E; congruence|].
    simpl. rewrite Hd. now destruct (span isdigit r).
  - fold (is_sign c). rewrite Hc. simpl. rewrite Hd. now destruct (span isdigit r).
Qed.

Lemma exponent_cases (s : list ascii) :
  starts_exponent s \/ Lexer.exponent s = ([], s).
Proof.
  destruct s as [|m r]; [now right|].
  unfold Lexer.exponent. fold (is_marker m).
  destruct (is_marker m) eqn:Hm; [|now right].
  destruct r as [|c r']; [now right|]. fold (is_sign c).
  destruct (is_sign c) eqn:Hc.
  - destruct r' as [|d r'']; [now right|]. simpl.
    destruct (isdigit d) eqn:Hd; [|now right].
    left. exists m, [c], d, r''. eauto 10.
  - simpl. destruct (isdigit c) eqn:Hd; [|now right].
    left. exists m, [], c, r'. eauto 10.
Qed.

Lemma digit_not_space (c : ascii) : isdigit c = true -> isspace c = false.
Proof. by_char c. Qed.

Lemma digit_not_dot (c : ascii) : isdigit c = true -> is_char c "." = false.
Proof. by_char c. Qed.

(** ** Arguments of a call are copied as they are *)

Lemma commas_snoc_char (args : list (list ascii)) (cur : list ascii) (c : ascii) :
  commas (args ++ [cur ++ [c]]) = commas (args ++ [cur]) ++ [c].
Proof.
  induction args as [|a args IH]; [reflexivity|].
  cbn [app commas]. destruct args as [|b args]; cbn [app] in *.
  - now rewrite <- app_assoc.
  - rewrite IH. now rewrite <- app_assoc.
Qed.

Lemma commas_snoc_new (args : list (list ascii)) (cur : list ascii) :
  commas ((args ++ [cur]) ++ [[]]) = commas (args ++ [cur]) ++ [","%char].
Proof.
  induction args as [|a args IH]; [reflexivity|].
  cbn [app commas]. destruct args as [|b args]; cbn [app] in *.
  - now rewrite <- app_assoc.
  - rewrite IH. now rewrite <- app_assoc.
Qed.

(** Inside the parentheses of a call, [call_args] only cuts the text at
    the commas of depth 1: whatever else is there, a nested call included,
    is in the arguments character for character. *)
Lemma call_args_raw (s : list ascii) :
  forall depth args cur args' rest,
    1 <= depth ->
    call_args s depth args cur = Some (args', rest) ->
    exists inside,
      s = inside ++ ")"%char :: rest
      /\ commas args' = commas (args ++ [cur]) ++ inside.
Proof.
  induction s as [|c r IH]; intros depth args cur args' rest Hd; cbn [call_args];
    [discriminate|].
  destruct (is_char c "(") eqn:Hopen.
  - replace (1 <? depth + 1) with true by (symmetry; apply Z.ltb_lt; lia).
    intros H. apply IH in H as (inside & -> & Hc); [|lia].
    exists (c :: inside). split; [reflexivity|].
    rewrite Hc, commas_snoc_char. list_norm.
  - destruct (is_char c ")") eqn:Hclose.
    + apply Ascii.eqb_eq in Hclose. subst c.
      destruct (Z.eqb_spec (depth - 1) 0).
      * intros H. inversion H; subst. exists []. split; [reflexivity|].
        now rewrite app_nil_r.
      * intros H. apply IH in H as (inside & -> & Hc); [|lia].
        exists (")"%char :: inside). split; [reflexivity|].
        rewrite Hc, commas_snoc_char. list_norm.
    + destruct (is_char c "," && (depth =? 1)) eqn:Hcomma.
      * apply andb_true_iff in Hcomma as [Hcomma _].
        apply Ascii.eqb_eq in Hcomma. subst c.
        intros H. apply IH in H as (inside & -> & Hc); [|lia].
        exists (","%char :: inside). split; [reflexivity|].
        rewrite Hc, commas_snoc_new. list_norm.
      * intros H. apply IH in H as (inside & -> & Hc); [|lia].
        exists (c :: inside). split; [reflexivity|].
        rewrite Hc, commas_snoc_char. list_norm.
Qed.

(** ** The bounds of the loops are never reached *)

Lemma span_length (p : ascii -> bool) (s : list ascii) :
  (length (snd (span p s)) <= length s)%nat.
Proof.
  rewrite <- (span_app p s) at 2. rewrite length_app. lia.
Qed.

Lemma mantissa_length (seenDot : bool) (s : list ascii) :
  (length (snd (Lexer.mantissa seenDot s)) <= length s)%nat.
Proof.
  revert seenDot. induction s as [|c r IH]; intros seenDot; cbn [Lexer.mantissa]; [cbn; lia|].
  destruct (isdigit c || negb seenDot && is_char c "."); [|cbn; lia].
  specialize (IH (seenDot || is_char c ".")).
  destruct (Lexer.mantissa _ r) as [a b]. cbn [snd length] in *. lia.
Qed.

Lemma exponent_length (s : list ascii) :
  (length (snd (Lexer.exponent s)) <= length s)%nat.
Proof.
  destruct (exponent_cases s) as [(m & sign & d & r & -> & Hm & Hsign & Hd)|Hs].
  - rewrite exponent_taken by assumption. cbn [snd].
    pose proof (span_length isdigit r). cbn [length]. rewrite length_app. cbn [length]. lia.
  - rewrite Hs. cbn. lia.
Qed.

Lemma scan_length (c : ascii) (r : list ascii) (tok : Token) (rest : list ascii) :
  Lexer.scan c r = Ok (tok, rest) ->
  (length rest <= length r)%nat /\ Token.t tok <> End.
Proof.
  unfold Lexer.scan. destruct (isdigit c || is_char c ".").
  - pose proof (mantissa_length (is_char c ".") r) as Hm.
    destruct (Lexer.mantissa (is_char c ".") r) as [m r1].
    pose proof (exponent_length r1) as He.
    destruct (Lexer.exponent r1) as [ex r2]. cbn [snd] in *.
    intros H. inversion H; subst. split; [lia|discriminate].
  - destruct (Lexer.isIdentStart c).
    { pose proof (span_length Lexer.isIdentChar r) as Hs.
      destruct (span Lexer.isIdentChar r) as [a r1]. cbn [snd] in Hs.
      intros H. inversion H; subst. split; [lia|discriminate]. }
    intros H.
    repeat match type of H with
           | (if is_char c ?x then _ else _) = _ => destruct (is_char c x)
           end;
      try discriminate H; inversion H; subst; (split; [lia|discriminate]).
Qed.

(** Every token but [End] consumes a character. *)
Lemma next_shrinks (s : list ascii) (tok : Token) (rest : list ascii) :
  Lexer.next s = Ok (tok, rest) ->
  Token.t tok <> End ->
  (length rest < length s)%nat.
Proof.
  unfold Lexer.next. pose proof (span_length isspace s) as Hs.
  destruct (snd (span isspace s)) as [|c r].
  - intros H Hty. inversion H; subst. now destruct Hty.
  - intros H _. apply scan_length in H. cbn [length] in Hs. lia.
Qed.

Lemma next_error (s : list ascii) (e : EvalError) :
  Lexer.next s = Err e -> e <> OutOfFuel.
Proof.
  unfold Lexer.next. destruct (snd (span isspace s)) as [|c r]; [discriminate|].
  unfold Lexer.scan.
  repeat match goal with
         | |- (if ?b then _ else _) = _ -> _ => destruct b
         | |- (let '(_, _) := ?x in _) = _ -> _ => destruct x
         end; intros H; inversion H; discriminate.
Qed.

Lemma drain_error (out ops : list Node) (e : EvalError) :
  drain out ops = Err e -> e = UnbalancedParens.
Proof.
  revert out. induction ops as [|top below IH]; intros out; cbn [drain]; [discriminate|].
  destruct (is_lparen top); [intros H; now inversion H|apply IH].
Qed.

Lemma shunt_step_error (tok : Token) (st : Shunt) (e : EvalError) :
  shunt_step tok st = Err e ->
  e = MisplacedSeparator \/ e = UnbalancedParens \/ e = UnexpectedToken.
Proof.
  unfold shunt_step.
  destruct (Token.t tok);
    repeat match goal with
           | |- (let '(_, _) := ?x in _) = _ -> _ => destruct x
           | |- match ?l with [] => _ | _ :: _ => _ end = _ -> _ => destruct l
           | |- (if ?b then _ else _) = _ -> _ => destruct b
           end; intros H; inversion H; auto.
Qed.

(** [toRPN] never stops for lack of fuel. *)
Lemma toRPN_loop_fuel (fuel : nat) (s : list ascii) (st : Shunt) :
  (length s < fuel)%nat -> toRPN_loop fuel s st <> Err OutOfFuel.
Proof.
  revert s st. induction fuel as [|fuel IH]; intros s st Hlen; [lia|].
  cbn [toRPN_loop]. unfold mbind, result_mbind, result_bind.
  destruct (Lexer.next s) as [[tok rest]|e] eqn:Hnext.
  - assert (Hgo : Token.t tok <> End ->
                  match shunt_step tok st with
                  | Ok st' => toRPN_loop fuel rest st'
                  | Err e => Err e
                  end <> Err OutOfFuel).
    { intros Hty. pose proof (next_shrinks _ _ _ Hnext Hty).
      destruct (shunt_step tok st) as [st'|e] eqn:Hstep; [apply IH; lia|].
      apply shunt_step_error in Hstep. intros Hfuel. inversion Hfuel; subst.
      intuition discriminate. }
    destruct (Token.t tok); try (apply Hgo; discriminate).
    intros H. apply drain_error in H. discriminate.
  - intros H. inversion H; subst. now apply next_error in Hnext.
Qed.

Lemma toRPN_fuel (line : list ascii) : toRPN line <> Err OutOfFuel.
Proof. apply toRPN_loop_fuel. lia. Qed.

Lemma call_args_shrinks (s : list ascii) (depth : Z) (args : list (list ascii))
    (cur : list ascii) (args' : list (list ascii)) (rest : list ascii) :
  call_args s depth args cur = Some (args', rest) -> (length rest < length s)%nat.
Proof.
  revert depth args cur. induction s as [|c r IH]; intros depth args cur; cbn [call_args];
    [discriminate|].
  repeat match goal with
         | |- (if ?b then _ else _) = _ -> _ => destruct b
         end;
    try (intros H; apply IH in H; cbn [length]; lia).
  intros H. inversion H; subst. cbn [length]. lia.
Qed.

(** [preprocessFuncCalls] never stops for lack of fuel. *)
Lemma preprocess_loop_fuel (fuel : nat) (s out : list ascii) :
  (length s <= fuel)%nat -> preprocess_loop fuel s out <> Err OutOfFuel.
Proof.
  revert s out. induction fuel as [|fuel IH]; intros s out Hlen.
  - destruct s; [discriminate|cbn in Hlen; lia].
  - destruct s as [|c r]; [discriminate|]. cbn [preprocess_loop]. cbn [length] in Hlen.
    assert (Hcopy : preprocess_loop fuel r (out ++ [c]) <> Err OutOfFuel)
      by (apply IH; lia).
    destruct (isalpha c || is_char c "_"); [|exact Hcopy].
    pose proof (span_length Lexer.isIdentChar r) as Hname.
    destruct (span Lexer.isIdentChar r) as [name after]. cbn [snd] in Hname.
    pose proof (span_length isspace after) as Hk.
    destruct (snd (span isspace after)) as [|p' rest'] eqn:Hat; [exact Hcopy|].
    destruct (is_char p' "("); [|exact Hcopy].
    destruct (call_args (p' :: rest') 0 [] []) as [[args rest]|] eqn:Hcall; [|discriminate].
    apply call_args_shrinks in Hcall. apply IH. lia.
Qed.

Lemma preprocessFuncCalls_fuel (line : list ascii) :
  preprocessFuncCalls line <> Err OutOfFuel.
Proof. apply preprocess_loop_fuel. lia. Qed.

(** ** Texts without calls are left alone by the rewriting *)

Lemma span_all (p : ascii -> bool) (s : list ascii) :
  Forall (fun c => p c = true) (fst (span p s)).
Proof.
  induction s as [|c r IH]; cbn [span]; [constructor|].
  destruct (p c) eqn:Hc; [|constructor].
  destruct (span p r) as [a b]. cbn [fst] in *. now constructor.
Qed.

Lemma span_stops (p : ascii -> bool) (s : list ascii) :
  match snd (span p s) with
  | c :: _ => p c = false
  | [] => True
  end.
Proof.
  induction s as [|c r IH]; cbn [span]; [exact I|].
  destruct (p c) eqn:Hc; [|exact Hc].
  destruct (span p r) as [a b]. exact IH.
Qed.

Lemma span_skip (p : ascii -> bool) (pre s : list ascii) :
  Forall (fun c => p c = true) pre -> snd (span p (pre ++ s)) = snd (span p s).
Proof.
  induction 1 as [|c pre Hc _ IH]; [reflexivity|].
  cbn [app span]. rewrite Hc. destruct (span p (pre ++ s)) as [a b]. exact IH.
Qed.

Lemma span_none (p : ascii -> bool) (s : list ascii) :
  match s with c :: _ => p c = false | [] => True end -> span p s = ([], s).
Proof. destruct s as [|c r]; [reflexivity|]. cbn [span]. now intros ->. Qed.

Lemma mantissa_app (seenDot : bool) (s : list ascii) :
  fst (Lexer.mantissa seenDot s) ++ snd (Lexer.mantissa seenDot s) = s.
Proof.
  revert seenDot. induction s as [|c r IH]; intros seenDot; cbn [Lexer.mantissa]; [reflexivity|].
  destruct (isdigit c || negb seenDot && is_char c "."); [|reflexivity].
  specialize (IH (seenDot || is_char c ".")).
  destruct (Lexer.mantissa _ r) as [a b]. cbn [fst snd app] in *. now rewrite IH.
Qed.

Lemma mantissa_chars (seenDot : bool) (s : list ascii) :
  Forall (fun c => isdigit c || is_char c "." = true) (fst (Lexer.mantissa seenDot s)).
Proof.
  revert seenDot. induction s as [|c r IH]; intros seenDot; cbn [Lexer.mantissa]; [constructor|].
  destruct (isdigit c || negb seenDot && is_char c ".") eqn:Hc; [|constructor].
  specialize (IH (seenDot || is_char c ".")).
  destruct (Lexer.mantissa _ r) as [a b]. cbn [fst] in *. constructor; [|exact IH].
  destruct (isdigit c); [reflexivity|]. cbn in Hc |- *.
  now apply andb_true_iff in Hc.
Qed.

Lemma preprocess_end (n : nat) (out : list ascii) : preprocess_loop n [] out = Ok out.
Proof. now destruct n. Qed.

Lemma preprocess_copy (n : nat) (c : ascii) (r out : list ascii) :
  starts_name c && call_follows r = false ->
  preprocess_loop (S n) (c :: r) out = preprocess_loop n r (out ++ [c]).
Proof.
  unfold starts_name, call_follows. intros H. cbn [preprocess_loop].
  destruct (isalpha c || is_char c "_"); [|reflexivity]. cbn [andb] in H.
  destruct (span Lexer.isIdentChar r) as [name after]. cbn [snd] in H.
  destruct (snd (span isspace after)) as [|p rest]; [reflexivity|].
  now rewrite H.
Qed.

Lemma preprocess_copy_all (pre r out : list ascii) (n : nat) :
  Forall (fun c => starts_name c = false) pre ->
  preprocess_loop (length pre + n) (pre ++ r) out = preprocess_loop n r (out ++ pre).
Proof.
  intros H. revert out. induction H as [|c pre Hc _ IH]; intros out.
  - now rewrite app_nil_r.
  - cbn [length Nat.add app]. rewrite preprocess_copy by now rewrite Hc.
    rewrite IH, <- app_assoc. reflexivity.
Qed.

Lemma space_not_name (c : ascii) : isspace c = true -> starts_name c = false.
Proof. by_char c. Qed.

Lemma digit_dot_not_name (c : ascii) :
  isdigit c || is_char c "." = true -> starts_name c = false.
Proof. by_char c. Qed.

Lemma digit_is_ident_char (c : ascii) : isdigit c = true -> Lexer.isIdentChar c = true.
Proof. by_char c. Qed.

Lemma sign_not_name (c : ascii) : is_sign c = true -> starts_name c = false.
Proof. by_char c. Qed.

Lemma sign_not_ident_char (c : ascii) : is_sign c = true -> Lexer.isIdentChar c = false.
Proof. by_char c. Qed.

Lemma sign_not_space (c : ascii) : is_sign c = true -> isspace c = false.
Proof. by_char c. Qed.

Lemma sign_not_lparen (c : ascii) : is_sign c = true -> is_char c "(" = false.
Proof. by_char c. Qed.

Lemma ident_char_cases (c : ascii) :
  Lexer.isIdentChar c = true -> isdigit c = true \/ Lexer.isIdentStart c = true.
Proof.
  unfold Lexer.isIdentChar, Lexer.isIdentStart, isalnum.
  destruct (isalpha c), (isdigit c), (is_char c "_"); cbn; auto.
Qed.

Lemma ident_start_class (c : ascii) :
  Lexer.isIdentStart c = true ->
  isspace c = false /\ isdigit c || is_char c "." = false.
Proof. by_char c; split; reflexivity. Qed.

Lemma mantissa_stops (seenDot : bool) (s : list ascii) :
  head_not isdigit (snd (Lexer.mantissa seenDot s)).
Proof.
  revert seenDot. induction s as [|c r IH]; intros seenDot; cbn [Lexer.mantissa]; [exact I|].
  destruct (isdigit c || negb seenDot && is_char c ".") eqn:Hc.
  - specialize (IH (seenDot || is_char c ".")).
    destruct (Lexer.mantissa _ r) as [a b]. exact IH.
  - cbn. now apply orb_false_iff in Hc.
Qed.

Lemma scan_number_rest (c : ascii) (r : list ascii) (tok : Token) (rest : list ascii) :
  Lexer.scan c r = Ok (tok, rest) -> Token.t tok = Number -> head_not isdigit rest.
Proof.
  unfold Lexer.scan. destruct (isdigit c || is_char c ".").
  - pose proof (mantissa_stops (is_char c ".") r) as Hms.
    destruct (Lexer.mantissa (is_char c ".") r) as [m r1]. cbn [snd] in Hms.
    destruct (exponent_cases r1) as [(mk & sign & d & r' & -> & Hmk & Hsign & Hd)|Hex].
    + rewrite exponent_taken by assumption. intros H _. inversion H; subst.
      apply span_stops.
    + rewrite Hex. intros H _. now inversion H; subst.
  - destruct (Lexer.isIdentStart c).
    { destruct (span Lexer.isIdentChar r). intros H Hty. inversion H; subst. discriminate. }
    intros H Hty.
    repeat match type of H with
           | (if is_char c ?x then _ else _) = _ => destruct (is_char c x)
           end;
      try discriminate H; inversion H; subst; discriminate.
Qed.

Lemma scan_ident_rest (c : ascii) (r : list ascii) (tok : Token) (rest : list ascii) :
  Lexer.scan c r = Ok (tok, rest) -> Token.t tok = Ident ->
  head_not Lexer.isIdentChar rest.
Proof.
  unfold Lexer.scan. destruct (isdigit c || is_char c ".").
  - destruct (Lexer.mantissa (is_char c ".") r) as [m r1].
    destruct (Lexer.exponent r1) as [ex r2]. intros H Hty. inversion H; subst. discriminate.
  - destruct (Lexer.isIdentStart c).
    { pose proof (span_stops Lexer.isIdentChar r) as Hstop.
      destruct (span Lexer.isIdentChar r). intros H _. now inversion H; subst. }
    intros H Hty.
    repeat match type of H with
           | (if is_char c ?x then _ else _) = _ => destruct (is_char c x)
           end;
      try discriminate H; inversion H; subst; discriminate.
Qed.

Lemma call_follows_skip (a r : list ascii) :
  Forall (fun c => Lexer.isIdentChar c = true) a ->
  call_follows (a ++ r) = call_follows r.
Proof. intros Ha. unfold call_follows. now rewrite span_skip. Qed.

Lemma preprocess_copy_ident (a r out : list ascii) (n : nat) :
  Forall (fun c => Lexer.isIdentChar c = true) a ->
  call_follows r = false ->
  preprocess_loop (length a + n) (a ++ r) out = preprocess_loop n r (out ++ a).
Proof.
  intros Ha Hr. revert out. induction Ha as [|c a Hc Ha IH]; intros out.
  - now rewrite app_nil_r.
  - cbn [length Nat.add app]. rewrite preprocess_copy.
    + rewrite IH. list_norm.
    + rewrite (call_follows_skip a r Ha), Hr. apply andb_false_r.
Qed.

Lemma ident_start_is_char (c : ascii) :
  Lexer.isIdentStart c = true -> Lexer.isIdentChar c = true.
Proof.
  unfold Lexer.isIdentStart, Lexer.isIdentChar, isalnum.
  destruct (isalpha c), (is_char c "_"), (isdigit c); cbn; auto.
Qed.

(** A token, when no call follows it, is copied by the rewriting. *)
Lemma scan_copy (c : ascii) (r : list ascii) (tok : Token) (rest : list ascii) :
  Lexer.scan c r = Ok (tok, rest) ->
  (Token.t tok = Number \/ Token.t tok = Ident -> call_follows rest = false) ->
  exists text,
    c :: r = text ++ rest
    /\ forall n out,
        preprocess_loop (length text + n) (text ++ rest) out
        = preprocess_loop n rest (out ++ text).
Proof.
  unfold Lexer.scan. destruct (isdigit c || is_char c ".") eqn:Hnum.
  - pose proof (mantissa_app (is_char c ".") r) as Hm.
    pose proof (mantissa_chars (is_char c ".") r) as Hmc.
    destruct (Lexer.mantissa (is_char c ".") r) as [m r1]. cbn [fst snd] in *.
    destruct (exponent_cases r1) as [(mk & sign & d & r' & -> & Hmk & Hsign & Hd)|Hex].
    + rewrite exponent_taken by assumption.
      intros H Hcall. inversion H; subst tok rest; clear H.
      specialize (Hcall (or_introl eq_refl)).
      pose proof (span_app isdigit r') as Hsp.
      pose proof (span_all isdigit r') as Hds.
      destruct (span isdigit r') as [ds r2]. cbn [fst snd] in *.
      exists (c :: m ++ mk :: sign ++ d :: ds). split.
      * rewrite <- Hm, <- Hsp. list_norm.
      * intros n out.
        assert (Hfollow : call_follows (sign ++ d :: ds ++ r2) = false).
        { destruct Hsign as [-> | (c' & -> & Hc')].
          - unfold call_follows. cbn [app].
            change (d :: ds ++ r2) with ((d :: ds) ++ r2).
            rewrite span_skip; [exact Hcall|].
            constructor; [now apply digit_is_ident_char|].
            eapply Forall_impl; [exact Hds|]. intros x. apply digit_is_ident_char.
          - unfold call_follows. cbn [app span].
            rewrite (sign_not_ident_char c' Hc'). cbn [snd span].
            rewrite (sign_not_space c' Hc'). cbn [snd].
            now apply sign_not_lparen. }
        replace (c :: m ++ mk :: sign ++ d :: ds)
          with ((c :: m) ++ [mk] ++ (sign ++ d :: ds))
          by list_norm.
        rewrite !length_app, <- !Nat.add_assoc, <- !app_assoc.
        rewrite preprocess_copy_all.
        2:{ constructor; [now apply digit_dot_not_name|].
            eapply Forall_impl; [exact Hmc|]. intros x. apply digit_dot_not_name. }
        cbn [length Nat.add app]. rewrite preprocess_copy.
        2:{ rewrite Hfollow. apply andb_false_r. }
        rewrite (preprocess_copy_all sign).
        2:{ destruct Hsign as [-> | (c' & -> & Hc')]; [constructor|].
            constructor; [now apply sign_not_name|constructor]. }
        change (S (length ds + n)) with (length (d :: ds) + n)%nat.
        change (d :: ds ++ r2) with ((d :: ds) ++ r2).
        rewrite (preprocess_copy_all (d :: ds)).
        2:{ constructor; [apply digit_dot_not_name; now rewrite Hd|].
            eapply Forall_impl; [exact Hds|]. intros x Hx.
            apply digit_dot_not_name. now rewrite Hx. }
        list_norm.
    + rewrite Hex. intros H _. inversion H; subst tok rest; clear H.
      exists (c :: m). split.
      * cbn [app]. now rewrite Hm.
      * intros n out. apply preprocess_copy_all.
        constructor; [now apply digit_dot_not_name|].
        eapply Forall_impl; [exact Hmc|]. intros x. apply digit_dot_not_name.
  - destruct (Lexer.isIdentStart c) eqn:Hstart.
    { pose proof (span_app Lexer.isIdentChar r) as Hsp.
      pose proof (span_all Lexer.isIdentChar r) as Hall.
      destruct (span Lexer.isIdentChar r) as [a r1]. cbn [fst snd] in *.
      intros H Hcall. inversion H; subst tok rest; clear H.
      specialize (Hcall (or_intror eq_refl)).
      exists (c :: a). split; [now rewrite <- Hsp|].
      intros n out. apply preprocess_copy_ident; [|exact Hcall].
      constructor; [now apply ident_start_is_char|exact Hall]. }
    intros H _.
    repeat match type of H with
           | (if is_char c ?x then _ else _) = _ =>
               let E := fresh "E" in destruct (is_char c x) eqn:E
           end;
      try discriminate H;
      inversion H; subst tok rest; clear H;
      match goal with
      | E : is_char c _ = true |- _ => apply Ascii.eqb_eq in E; subst c
      end;
      match goal with
      | |- exists text, ?c0 :: _ = _ /\ _ =>
          exists [c0]; split; [reflexivity|];
          intros n out; apply (preprocess_copy_all [c0]);
          constructor; [reflexivity|constructor]
      end.
Qed.

Lemma next_not_call (s : list ascii) (tok : Token) (rest : list ascii) :
  Lexer.next s = Ok (tok, rest) ->
  Token.t tok <> LParen ->
  head_not Lexer.isIdentChar s \/ (Token.t tok <> Ident /\ head_not isdigit s) ->
  call_follows s = false.
Proof.
  intros Hnext Hlp Hhead. unfold call_follows.
  destruct s as [|c0 s']; [reflexivity|]. cbn [head_not] in Hhead.
  destruct (Lexer.isIdentChar c0) eqn:Hc0.
  - exfalso. destruct Hhead as [Hhead|[Hid Hhead]]; [discriminate|].
    destruct (ident_char_cases c0 Hc0) as [Hd|Hstart]; [congruence|].
    destruct (ident_start_class c0 Hstart) as [Hsp Hnum].
    unfold Lexer.next in Hnext. cbn [span] in Hnext. rewrite Hsp in Hnext.
    cbn [snd] in Hnext. unfold Lexer.scan in Hnext. rewrite Hnum, Hstart in Hnext.
    destruct (span Lexer.isIdentChar s'). inversion Hnext; subst. now apply Hid.
  - rewrite (span_none Lexer.isIdentChar (c0 :: s') Hc0). cbn [snd].
    unfold Lexer.next in Hnext.
    destruct (snd (span isspace (c0 :: s'))) as [|c1 r1]; [reflexivity|].
    destruct (is_char c1 "(") eqn:Hc1; [|reflexivity].
    apply Ascii.eqb_eq in Hc1. subst c1. inversion Hnext; subst. now destruct Hlp.
Qed.

Lemma preprocess_plain (fuel : nat) (s : list ascii) (toks : list Token) :
  tokenize_loop fuel s = Ok toks ->
  plain toks = true ->
  forall n out, preprocess_loop (length s + n) s out = Ok (out ++ s).
Proof.
  revert s toks. induction fuel as [|fuel IH]; intros s toks; [discriminate|].
  cbn [tokenize_loop]. unfold mbind, result_mbind, result_bind.
  destruct (Lexer.next s) as [[tok rest]|e] eqn:Hnext; [|discriminate].
  unfold Lexer.next in Hnext.
  pose proof (span_app isspace s) as Hs. pose proof (span_all isspace s) as Hws.
  destruct (span isspace s) as [ws s1]. cbn [fst snd] in *.
  assert (Hcopy : forall k out, preprocess_loop (length s + k) s out
                                = preprocess_loop (length s1 + k) s1 (out ++ ws)).
  { intros k out. rewrite <- Hs, length_app, <- Nat.add_assoc.
    apply preprocess_copy_all. eapply Forall_impl; [exact Hws|].
    intros x. apply space_not_name. }
  destruct s1 as [|c r].
  { intros _ _ n out. rewrite Hcopy, preprocess_end, <- Hs. now rewrite app_nil_r. }
  intros Htok Hplain.
  assert (Hend : Token.t tok <> End) by now apply scan_length in Hnext.
  destruct (tokenize_loop fuel rest) as [toks'|e] eqn:Htoks'.
  2:{ destruct (Token.t tok); discriminate || now destruct Hend. }
  assert (toks = tok :: toks') as ->.
  { destruct (Token.t tok); inversion Htok; subst; reflexivity || now destruct Hend. }
  cbn [plain] in Hplain.
  assert (Hplain' : plain toks' = true).
  { destruct (Token.t tok); try exact Hplain; now apply andb_true_iff in Hplain. }
  intros n out.
  destruct (scan_copy c r tok rest Hnext) as (text & Htext & Hstep).
  - intros Hty.
    assert (Hlp : head_is LParen toks' = false).
    { destruct Hty as [Hty|Hty]; rewrite Hty in Hplain;
        repeat (apply andb_true_iff in Hplain as [Hplain ?]);
        now apply negb_true_iff. }
    destruct fuel as [|fuel']; [discriminate|].
    cbn [tokenize_loop] in Htoks'. unfold mbind, result_mbind, result_bind in Htoks'.
    destruct (Lexer.next rest) as [[tok' rest']|e] eqn:Hnext'; [|discriminate].
    assert (Hhead : forall ty, Token.t tok' = ty -> ty <> End -> head_is ty toks' = true).
    { intros ty Hty' Hne. rewrite Hty' in Htoks'.
      destruct ty; try (now destruct Hne);
        (destruct (tokenize_loop fuel' rest'); [|discriminate];
         inversion Htoks'; subst; cbn [head_is]; now apply bool_decide_eq_true). }
    apply (next_not_call rest tok' rest' Hnext').
    + intros Hty'. apply Hhead in Hty'; [congruence|discriminate].
    + destruct Hty as [Hty|Hty].
      * right. split; [|exact (scan_number_rest c r tok rest Hnext Hty)].
        intros Hty'. apply Hhead in Hty'; [|discriminate].
        rewrite Hty in Hplain. apply andb_true_iff in Hplain as [Hplain _].
        apply andb_true_iff in Hplain as [_ Hplain].
        apply negb_true_iff in Hplain. congruence.
      * left. exact (scan_ident_rest c r tok rest Hnext Hty).
  - rewrite Hcopy, Htext, length_app, <- Nat.add_assoc, Hstep.
    rewrite (IH rest toks' Htoks' Hplain').
    rewrite <- Hs, Htext. list_norm.
Qed.

Lemma plain_tokens (e : expr) (rest : list Token) :
  plain rest = true ->
  head_is LParen rest = false ->
  head_is Ident rest = false ->
  plain (tokens e ++ rest) = true.
Proof.
  revert rest. induction e as [v|e IH|e IH|op a IHa b IHb]; intros rest Hrest Hlp Hid.
  - cbn. now rewrite Hlp, Hid, Hrest.
  - cbn [tokens app plain punct Token.t]. rewrite <- app_assoc. now apply IH.
  - cbn [tokens app plain punct Token.t]. now apply IH.
  - cbn [tokens]. rewrite <- app_assoc. apply IHa.
    + cbn [app plain]. destruct op; cbn; now apply IHb.
    + now destruct op.
    + now destruct op.
Qed.

(** The text of an expression is not rewritten. *)
Lemma preprocess_expr (e : expr) (s : list ascii) :
  tokenize s = Ok (tokens e) -> preprocessFuncCalls s = Ok s.
Proof.
  intros Htok. unfold preprocessFuncCalls.
  rewrite <- (Nat.add_0_r (length s)).
  apply (preprocess_plain _ _ _ Htok).
  rewrite <- (app_nil_r (tokens e)). now apply plain_tokens.
Qed.

(** ** The parser on the tokens of an expression *)

Lemma shunt_all_app (a b : list Token) (st : Shunt) :
  shunt_all (a ++ b) st = st' ← shunt_all a st; shunt_all b st'.
Proof.
  revert st. induction a as [|tok a IH]; intros st; [reflexivity|].
  cbn [app shunt_all]. unfold mbind, result_mbind, result_bind in *.
  destruct (shunt_step tok st) as [st'|e]; [apply IH|reflexivity].
Qed.

Lemma toRPN_loop_tokens (fuel : nat) (s : list ascii) (toks : list Token) (st : Shunt) :
  tokenize_loop fuel s = Ok toks ->
  toRPN_loop fuel s st = st' ← shunt_all toks st; drain (output st') (ops st').
Proof.
  revert s toks st. induction fuel as [|fuel IH]; intros s toks st; [discriminate|].
  cbn [tokenize_loop toRPN_loop]. unfold mbind, result_mbind, result_bind in *.
  destruct (Lexer.next s) as [[tok rest]|e]; [|discriminate].
  destruct (Token.t tok) eqn:Ht;
    try (intros H; inversion H; subst; reflexivity);
    (destruct (tokenize_loop fuel rest) as [toks'|e] eqn:Hrest; [|discriminate];
     intros H; inversion H; subst; cbn [shunt_all];
     unfold mbind, result_mbind, result_bind;
     destruct (shunt_step tok st) as [st'|e]; [|reflexivity];
     now apply IH).
Qed.

Lemma pop_stop (oi : OpInfo) (out ops : list Node) :
  (if rightAssoc oi then top_prec ops <= prec oi else top_prec ops < prec oi) ->
  pop_until (fun n => negb (yields_to oi n)) out ops = (out, ops).
Proof.
  destruct ops as [|top below]; [reflexivity|]. cbn [pop_until top_prec].
  unfold yields_to. intros H.
  destruct (is_kind top KOp); cbn [orb andb].
  - destruct (find OP (Node.text top)) as [ti|]; [|reflexivity].
    destruct (rightAssoc oi).
    + destruct (Z.ltb_spec (prec oi) (prec ti)); [lia|reflexivity].
    + destruct (Z.leb_spec (prec oi) (prec ti)); [lia|reflexivity].
  - now rewrite andb_false_r.
Qed.

Lemma pop_pending (oi : OpInfo) (pend out ops : list Node) :
  Forall (operator_from (if rightAssoc oi then prec oi + 1 else prec oi)) pend ->
  pop_until (fun n => negb (yields_to oi n)) out (pend ++ ops)
  = pop_until (fun n => negb (yields_to oi n)) (out ++ pend) ops.
Proof.
  revert out. induction pend as [|n pend IH]; intros out H.
  - now rewrite app_nil_r.
  - inversion H as [|? ? (sym & ti & -> & Hfind & Hp) Hrest]; subst.
    cbn [app pop_until]. unfold yields_to at 1.
    cbn [op_node Node.text]. change (is_kind (op_node sym) KOp) with true.
    cbn [orb andb]. rewrite Hfind.
    replace (if rightAssoc oi then prec oi <? prec ti else prec oi <=? prec ti) with true.
    + cbn [negb]. rewrite IH by assumption. now rewrite <- app_assoc.
    + destruct (rightAssoc oi); symmetry; [apply Z.ltb_lt|apply Z.leb_le]; lia.
Qed.

Lemma operator_not_lparen (p : Z) (n : Node) : operator_from p n -> is_lparen n = false.
Proof.
  intros (sym & ti & -> & Hfind & _). unfold is_lparen. cbn.
  destruct (String.eqb_spec sym "("); [subst; discriminate|reflexivity].
Qed.

Lemma pop_to_lparen (p : Z) (pend out ops : list Node) :
  Forall (operator_from p) pend ->
  pop_until is_lparen out (pend ++ op_node "(" :: ops) = (out ++ pend, op_node "(" :: ops).
Proof.
  revert out. induction pend as [|n pend IH]; intros out H.
  - now rewrite app_nil_r.
  - inversion H as [|? ? Hn Hrest]; subst. cbn [app pop_until].
    rewrite (operator_not_lparen _ _ Hn), IH by assumption. now rewrite <- app_assoc.
Qed.

Lemma drain_pending (p : Z) (pend out : list Node) :
  Forall (operator_from p) pend -> drain out pend = Ok (out ++ pend).
Proof.
  revert out. induction pend as [|n pend IH]; intros out H.
  - now rewrite app_nil_r.
  - inversion H as [|? ? Hn Hrest]; subst. cbn [drain].
    rewrite (operator_not_lparen _ _ Hn), IH by assumption. now rewrite <- app_assoc.
Qed.

Lemma operator_from_weaken (p q : Z) (n : Node) :
  q <= p -> operator_from p n -> operator_from q n.
Proof. intros Hq (sym & ti & H1 & H2 & H3). exists sym, ti. repeat split; auto; lia. Qed.

Lemma top_prec_max (ops : list Node) : 0 <= top_prec ops <= 4.
Proof.
  destruct ops as [|top below]; cbn [top_prec]; [lia|].
  destruct (is_kind top KOp); [|lia].
  destruct (find OP (Node.text top)) as [ti|] eqn:H; [|lia].
  unfold OP, find in H.
  repeat match type of H with
         | context [if String.eqb ?a ?b then _ else _] => destruct (String.eqb a b)
         end; inversion H; subst; cbn; lia.
Qed.

Lemma level_range (g : precedence) (e : expr) :
  g = code_precedence -> 1 <= level g e <= 5.
Proof. intros ->. destruct e as [| | |[] ? ?]; cbn; lia. Qed.

Lemma shunt_all_ok (a b : list Token) (st st1 : Shunt) :
  shunt_all a st = Ok st1 -> shunt_all (a ++ b) st = shunt_all b st1.
Proof. intros H. rewrite shunt_all_app, H. reflexivity. Qed.

Lemma step_rparen (p : Z) (out pending stk : list Node) (pv : TokType) :
  Forall (operator_from p) pending ->
  no_func stk ->
  shunt_step (punct RParen ")")
    {| output := out; ops := pending ++ op_node "(" :: stk; prev := pv |}
  = Ok {| output := out ++ pending; ops := stk; prev := RParen |}.
Proof.
  intros Hp Hnf. unfold shunt_step. cbn [punct Token.t output ops].
  rewrite (pop_to_lparen p) by assumption.
  destruct stk as [|f below]; [reflexivity|].
  inversion Hnf as [|? ? Hf _]; subst. now rewrite Hf.
Qed.

Lemma step_unary_minus (out stk : list Node) (pv : TokType) :
  unary pv = true ->
  shunt_step (punct Minus "-") {| output := out; ops := stk; prev := pv |}
  = Ok {| output := out; ops := op_node "u-" :: stk; prev := Minus |}.
Proof.
  intros Hpv. unfold shunt_step, operator_symbol.
  cbn [punct Token.t output ops prev symbol_of]. rewrite Hpv.
  change (true && String.eqb "-" "-") with true. cbv iota.
  rewrite pop_stop; [reflexivity|].
  change (OP_at "u-") with (Build_OpInfo 4 true 1). cbn [rightAssoc prec].
  apply top_prec_max.
Qed.

Lemma step_binop (op : binop) (out pending stk : list Node) (pv : TokType) :
  unary pv = false ->
  Forall (operator_from (if rightAssoc (binop_info op)
                         then prec (binop_info op) + 1 else prec (binop_info op)))
    pending ->
  (if rightAssoc (binop_info op)
   then top_prec stk <= prec (binop_info op) else top_prec stk < prec (binop_info op)) ->
  shunt_step (binop_token op) {| output := out; ops := pending ++ stk; prev := pv |}
  = Ok {| output := out ++ pending; ops := op_node (binop_symbol op) :: stk;
          prev := Token.t (binop_token op) |}.
Proof.
  intros Hpv Hpend Htop.
  assert (Hstep :
    shunt_step (binop_token op) {| output := out; ops := pending ++ stk; prev := pv |}
    = let '(out', stk') :=
        pop_until (fun n => negb (yields_to (binop_info op) n)) out (pending ++ stk) in
      Ok {| output := out'; ops := op_node (binop_symbol op) :: stk';
            prev := Token.t (binop_token op) |}).
  { unfold shunt_step, operator_symbol, binop_info.
    destruct op; cbn [binop_token punct Token.t output ops prev symbol_of];
      rewrite Hpv; reflexivity. }
  rewrite Hstep, pop_pending, pop_stop by assumption. reflexivity.
Qed.

Lemma entry_mono (l l' : Z) : l <= l' -> entry l <= entry l'.
Proof.
  unfold entry. intros H.
  destruct (Z.leb_spec l 2), (Z.leb_spec l' 2); lia.
Qed.

(** The parser on the tokens of [e], started where an operand may start:
    the nodes of [e] are written in postfix order, but for the operators
    still [pending] on top of the stack, all of them at least as tight as
    the level of [e]. *)
Lemma shunt_expr (e : expr) :
  reads_as code_precedence e ->
  forall out ops pv,
    unary pv = true ->
    top_prec ops <= entry (level code_precedence e) ->
    no_func ops ->
    exists o pending pv',
      shunt_all (tokens e) {| output := out; ops := ops; prev := pv |}
      = Ok {| output := out ++ o; ops := pending ++ ops; prev := pv' |}
      /\ o ++ pending = postfix e
      /\ Forall (operator_from (level code_precedence e)) pending
      /\ unary pv' = false.
Proof.
  induction e as [v|e IH|e IH|op a IHa b IHb]; intros Hread out ops pv Hpv Htop Hnf.
  - exists [num_node v], [], Number. repeat split; constructor.
  - cbn [tokens reads_as] in *.
    destruct (IH Hread out (op_node "(" :: ops) LParen) as (o & pend & pv' & Hrun & Hpost & Hpend & _).
    + reflexivity.
    + change (top_prec (op_node "(" :: ops)) with 0.
      pose proof (level_range code_precedence e eq_refl). unfold entry.
      destruct (Z.leb_spec (level code_precedence e) 2); lia.
    + constructor; [reflexivity|assumption].
    + exists (o ++ pend), [], RParen.
      cbn [shunt_all]. change (shunt_step (punct LParen "(") _)
        with (Ok {| output := out; ops := op_node "(" :: ops; prev := LParen |}).
      cbn [mbind result_mbind result_bind].
      rewrite (shunt_all_ok _ _ _ _ Hrun). cbn [shunt_all].
      rewrite (step_rparen _ _ _ _ _ Hpend Hnf). cbn [mbind result_mbind result_bind].
      rewrite app_nil_r, app_assoc. repeat split; auto.
  - cbn [tokens reads_as] in *. destruct Hread as [Hread Hlevel].
    destruct (IH Hread out (op_node "u-" :: ops) Minus) as (o & pend & pv' & Hrun & Hpost & Hpend & Hpv').
    + reflexivity.
    + change (top_prec (op_node "u-" :: ops)) with 4.
      cbn [neg_level code_precedence] in Hlevel. unfold entry.
      destruct (Z.leb_spec (level code_precedence e) 2); lia.
    + constructor; [reflexivity|assumption].
    + exists o, (pend ++ [op_node "u-"]), pv'.
      cbn [shunt_all]. rewrite (step_unary_minus _ _ _ Hpv).
      cbn [mbind result_mbind result_bind]. rewrite Hrun.
      rewrite <- app_assoc. cbn [app postfix]. rewrite app_assoc, Hpost.
      repeat split; auto. apply Forall_app. split.
      * eapply Forall_impl; [exact Hpend|]. intros n. apply operator_from_weaken. exact Hlevel.
      * constructor; [|constructor]. exists "u-"%string, (Build_OpInfo 4 true 1).
        repeat split. cbn. lia.
  - cbn [tokens]. pose proof (level_range code_precedence a eq_refl) as Hla.
    pose proof (level_range code_precedence b eq_refl) as Hlb.
    assert (Hparts : reads_as code_precedence a /\ reads_as code_precedence b
              /\ (if rightAssoc (binop_info op)
                  then prec (binop_info op) + 1 else prec (binop_info op))
                 <= level code_precedence a
              /\ prec (binop_info op) <= entry (level code_precedence b)
              /\ level code_precedence (EBin op a b) = prec (binop_info op)
              /\ prec (binop_info op) <= level code_precedence b).
    { unfold entry. destruct (Z.leb_spec (level code_precedence b) 2);
        destruct op; cbn in Hread |- *; intuition lia. }
    destruct Hparts as (Hra & Hrb & Hlevel_a & Hentry_b & Hlevel & Hlevel_b).
    rewrite Hlevel in *.
    destruct (IHa Hra out ops pv Hpv) as (oa & penda & pva & Hrun_a & Hpost_a & Hpend_a & Hpva).
    { etransitivity; [exact Htop|]. apply entry_mono.
      destruct (rightAssoc (binop_info op)); lia. }
    { exact Hnf. }
    assert (Hstep := step_binop op (out ++ oa) penda ops pva Hpva).
    rewrite (shunt_all_ok _ _ _ _ Hrun_a). cbn [shunt_all].
    rewrite Hstep; clear Hstep.
    + cbn [mbind result_mbind result_bind].
      destruct (IHb Hrb ((out ++ oa) ++ penda) (op_node (binop_symbol op) :: ops)
                  (Token.t (binop_token op)))
        as (ob & pendb & pvb & Hrun_b & Hpost_b & Hpend_b & Hpvb).
      * now destruct op.
      * replace (top_prec (op_node (binop_symbol op) :: ops)) with (prec (binop_info op))
          by now destruct op.
        exact Hentry_b.
      * constructor; [reflexivity|assumption].
      * exists (oa ++ penda ++ ob), (pendb ++ [op_node (binop_symbol op)]), pvb.
        rewrite Hrun_b. repeat split.
        -- f_equal. f_equal; [now rewrite !app_assoc|now rewrite <- app_assoc].
        -- cbn [postfix]. rewrite <- Hpost_a, <- Hpost_b. now rewrite <- !app_assoc.
        -- apply Forall_app. split.
           ++ eapply Forall_impl; [exact Hpend_b|]. intros n.
              apply operator_from_weaken. exact Hlevel_b.
           ++ constructor; [|constructor].
              exists (binop_symbol op), (binop_info op). repeat split; [|lia].
              now destruct op.
        -- exact Hpvb.
    + eapply Forall_impl; [exact Hpend_a|]. intros n.
      apply operator_from_weaken. exact Hlevel_a.
    + unfold entry in Htop. destruct (Z.leb_spec (prec (binop_info op)) 2);
        destruct op; cbn in *; lia.
Qed.

(** ** The evaluator and the environment *)

Arguments find : simpl never.
Arguments applyOp : simpl never.

Ltac unfold_eval :=
  unfold mbind, eval_mbind, eval_bind, eval_ret, throw, lift, vars_find, vars_set in *.

Section EvalFacts.
Context {libm : cmath.Lib}.

(** The evaluation loop reads the environment and never writes it. *)
Lemma eval_node_env (n : Node) (st : list float) (env : Env) :
  snd (eval_node n st env) = env.
Proof.
  unfold eval_node.
  destruct (Node.k n); unfold_eval; simpl; try reflexivity.
  - destruct (find UF (Node.text n)); [now destruct st|].
    destruct (find BF (Node.text n)); [now destruct st as [|? [|? ?]]|].
    simpl. now destruct (vars env !! Node.text n).
  - destruct (length st <? _)%nat; [reflexivity|].
    now destruct (applyOp (Node.text n) st).
Qed.

Lemma eval_nodes_env (ns : list Node) (st : list float) (env : Env) :
  snd (eval_nodes ns st env) = env.
Proof.
  revert st. induction ns as [|n ns IH]; intros st; simpl; [reflexivity|].
  unfold mbind, eval_mbind, eval_bind.
  pose proof (eval_node_env n st env) as Hn.
  destruct (eval_node n st env) as [[st'|e] env']; simpl in Hn; subst env'.
  - apply IH.
  - reflexivity.
Qed.

Lemma applyOp_error (op : string) (st : list float) (e : EvalError) :
  applyOp op st = Err e -> loop_error e = true.
Proof.
  unfold applyOp. intros H.
  repeat match type of H with
         | context [if ?b then _ else _] => destruct b
         | context [match ?l with [] => _ | _ :: _ => _ end] => destruct l
         end; inversion H; reflexivity.
Qed.

Lemma eval_node_error (n : Node) (st : list float) (env env' : Env) (e : EvalError) :
  eval_node n st env = (Err e, env') -> loop_error e = true.
Proof.
  unfold eval_node.
  destruct (Node.k n); unfold_eval; simpl; try discriminate.
  - destruct (find UF (Node.text n)); [destruct st; intros H; now inversion H|].
    destruct (find BF (Node.text n));
      [destruct st as [|? [|? ?]]; intros H; now inversion H|].
    destruct (vars env !! Node.text n); intros H; now inversion H.
  - destruct (length st <? _)%nat; [intros H; now inversion H|].
    destruct (applyOp (Node.text n) st) eqn:Ha; intros H; inversion H; subst.
    eapply applyOp_error; eauto.
Qed.

Lemma eval_nodes_error (ns : list Node) (st : list float) (env env' : Env) (e : EvalError) :
  eval_nodes ns st env = (Err e, env') -> loop_error e = true.
Proof.
  revert st. induction ns as [|n ns IH]; intros st; simpl; [discriminate|].
  unfold mbind, eval_mbind, eval_bind.
  pose proof (eval_node_env n st env) as Hn.
  destruct (eval_node n st env) as [[st'|e0] env0] eqn:E; simpl in Hn; subst env0.
  - apply IH.
  - intros H; inversion H; subst. eapply eval_node_error; eauto.
Qed.

Lemma eval_nodes_skip (keep : Node -> bool) (ns : list Node) (st : list float) (env : Env) :
  (forall n, keep n = false -> inert n = true) ->
  eval_nodes ns st env = eval_nodes (List.filter keep ns) st env.
Proof.
  intros Hkeep. revert st. induction ns as [|n ns IH]; intros st; [reflexivity|].
  cbn [List.filter]. destruct (keep n) eqn:Hk.
  - cbn [eval_nodes]. unfold mbind, eval_mbind, eval_bind.
    destruct (eval_node n st env) as [[st'|e] env'] eqn:E; [|reflexivity].
    pose proof (eval_node_env n st env) as Hn. rewrite E in Hn. simpl in Hn. subst env'.
    apply IH.
  - cbn [eval_nodes]. unfold mbind, eval_mbind, eval_bind.
    specialize (Hkeep n Hk). unfold inert, is_kind in Hkeep.
    assert (Hn : eval_node n st env = (Ok st, env)).
    { unfold eval_node.
      destruct (Node.k n); try reflexivity; cbn in Hkeep; discriminate. }
    rewrite Hn. apply IH.
Qed.

Lemma evalRPN_error_env (rpn : list Node) (env env' : Env) (e : EvalError) :
  evalRPN rpn env = (Err e, env') -> env' = env.
Proof.
  unfold evalRPN.
  destruct (existsb _ rpn);
    [destruct (_ || _ || _); [unfold throw; intros H; now inversion H|]|];
    unfold mbind, eval_mbind, eval_bind;
    match goal with
    | |- context [eval_nodes ?ns ?st env] =>
        pose proof (eval_nodes_env ns st env) as Hn;
        destruct (eval_nodes ns st env) as [[stk|e0] env0]; simpl in Hn; subst env0
    end;
    try (intros H; now inversion H);
    destruct stk as [|v [|? ?]]; unfold_eval; intros H; now inversion H.
Qed.

Lemma evalRPN_ok_env (rpn : list Node) (env env' : Env) (v : float) :
  evalRPN rpn env = (Ok v, env') ->
  env' = env
  \/ exists name,
       env' = {| vars := <[name := v]> (vars env); precision := precision env |}.
Proof.
  unfold evalRPN.
  destruct (existsb _ rpn);
    [destruct (_ || _ || _); [unfold throw; discriminate|]|];
    unfold mbind, eval_mbind, eval_bind;
    match goal with
    | |- context [eval_nodes ?ns ?st env] =>
        pose proof (eval_nodes_env ns st env) as Hn;
        destruct (eval_nodes ns st env) as [[stk|e0] env0]; simpl in Hn; subst env0
    end;
    try discriminate;
    destruct stk as [|w [|? ?]]; unfold_eval; intros H; inversion H; subst; eauto.
Qed.

Lemma evalRPN_no_assign_env (rpn : list Node) (env : Env) :
  existsb (fun n => is_kind n KAssign) rpn = false -> snd (evalRPN rpn env) = env.
Proof.
  intros Hno. unfold evalRPN. rewrite Hno.
  unfold mbind, eval_mbind, eval_bind.
  pose proof (eval_nodes_env rpn [] env) as Hn.
  destruct (eval_nodes rpn [] env) as [[stk|e0] env0]; simpl in Hn; subst env0;
    [|reflexivity].
  now destruct stk as [|v [|? ?]].
Qed.

End EvalFacts.

(** ** The evaluator on the postfix form of an expression *)

Section PostfixFacts.
Context {libm : cmath.Lib}.

Lemma eval_op_unary (b : float) (st : list float) (env : Env) :
  eval_node (op_node "u-") (b :: st) env = (Ok ((- b)%float :: st), env).
Proof. reflexivity. Qed.

Lemma eval_op_binary (op : binop) (a b : float) (st : list float) (env : Env) :
  eval_node (op_node (binop_symbol op)) (b :: a :: st) env
  = match apply_binop op a b with
    | Ok v => (Ok (v :: st), env)
    | Err e => (Err e, env)
    end.
Proof.
  destruct op; reflexivity.
Qed.

Lemma eval_nodes_app (ns rest : list Node) (st : list float) (env : Env) :
  eval_nodes (ns ++ rest) st env
  = match eval_nodes ns st env with
    | (Ok st', _) => eval_nodes rest st' env
    | (Err e, _) => (Err e, env)
    end.
Proof.
  revert st. induction ns as [|n ns IH]; intros st; [reflexivity|].
  cbn [app eval_nodes]. unfold mbind, eval_mbind, eval_bind.
  pose proof (eval_node_env n st env) as Hn.
  destruct (eval_node n st env) as [[st'|e] env']; cbn in Hn; subst env'.
  - apply IH.
  - reflexivity.
Qed.

(** Evaluating the postfix form of [e] pushes the value of [e], or fails
    as the value does. *)
Lemma eval_postfix (e : expr) (st : list float) (env : Env) :
  eval_nodes (postfix e) st env
  = match value e with
    | Ok v => (Ok (v :: st), env)
    | Err er => (Err er, env)
    end.
Proof.
  revert st. induction e as [v|e IH|e IH|op a IHa b IHb]; intros st; cbn [postfix value].
  - reflexivity.
  - apply IH.
  - rewrite eval_nodes_app, IH. unfold mbind, result_mbind, result_bind.
    destruct (value e) as [v|er]; [|reflexivity].
    cbn [eval_nodes]. unfold mbind, eval_mbind, eval_bind.
    now rewrite eval_op_unary.
  - rewrite eval_nodes_app, IHa. unfold mbind, result_mbind, result_bind.
    destruct (value a) as [va|er]; [|reflexivity].
    rewrite eval_nodes_app, IHb.
    destruct (value b) as [vb|er]; [|reflexivity].
    cbn [eval_nodes]. unfold mbind, eval_mbind, eval_bind.
    rewrite eval_op_binary. now destruct (apply_binop op va vb).
Qed.

Lemma postfix_no_assign (e : expr) :
  existsb (fun n => is_kind n KAssign) (postfix e) = false.
Proof.
  induction e as [v|e IH|e IH|op a IHa b IHb]; cbn [postfix].
  - reflexivity.
  - exact IH.
  - rewrite existsb_app, IH. reflexivity.
  - rewrite !existsb_app, IHa, IHb. reflexivity.
Qed.

Lemma evalRPN_postfix (e : expr) (env : Env) :
  evalRPN (postfix e) env = (value e, env).
Proof.
  unfold evalRPN. rewrite postfix_no_assign.
  unfold mbind, eval_mbind, eval_bind. rewrite eval_postfix.
  now destruct (value e).
Qed.

End PostfixFacts.

Lemma toRPN_expr (e : expr) (s : list ascii) :
  reads_as code_precedence e ->
  tokenize s = Ok (tokens e) ->
  toRPN s = Ok (postfix e).
Proof.
  intros Hread Htok. unfold toRPN, tokenize in *.
  rewrite (toRPN_loop_tokens _ _ _ _ Htok).
  destruct (shunt_expr e Hread [] [] End) as (o & pend & pv' & Hrun & Hpost & Hpend & _).
  - reflexivity.
  - change (top_prec []) with 0.
    pose proof (level_range code_precedence e eq_refl). unfold entry.
    destruct (Z.leb_spec (level code_precedence e) 2); lia.
  - constructor.
  - rewrite Hrun. cbn [mbind result_mbind result_bind output ops].
    rewrite app_nil_r, (drain_pending _ _ _ Hpend). cbn [app]. now rewrite Hpost.
Qed.

(** ** Lines of the form name = expression *)

Lemma postfix_head (e : expr) : exists v rest, postfix e = num_node v :: rest.
Proof.
  induction e as [v|e IH|e IH|op a IHa b IHb]; cbn [postfix].
  - now exists v, [].
  - exact IH.
  - destruct IH as (v & rest & ->). now exists v, (rest ++ [op_node "u-"]).
  - destruct IHa as (v & rest & ->).
    now exists v, (rest ++ postfix b ++ [op_node (binop_symbol op)]).
Qed.

Lemma preprocess_assignment (name : string) (e : expr) (s : list ascii) :
  tokenize s = Ok (assignment_tokens name e) -> preprocessFuncCalls s = Ok s.
Proof.
  intros Htok. unfold preprocessFuncCalls.
  rewrite <- (Nat.add_0_r (length s)).
  apply (preprocess_plain _ _ _ Htok).
  unfold assignment_tokens. cbn [plain Token.t punct head_is].
  rewrite <- (app_nil_r (tokens e)). now apply plain_tokens.
Qed.

(** The Assignment marker stays on the operator stack to the end of the
    line: it is the last node of the postfix form. *)
Lemma toRPN_assignment (name : string) (e : expr) (s : list ascii) :
  reads_as code_precedence e ->
  tokenize s = Ok (assignment_tokens name e) ->
  toRPN s = Ok (var_node name :: postfix e ++ [assign_node]).
Proof.
  intros Hread Htok. unfold toRPN, tokenize in *.
  rewrite (toRPN_loop_tokens _ _ _ _ Htok).
  unfold assignment_tokens. cbn [shunt_all].
  change (shunt_step (Token.mk Ident 0%float name) _)
    with (Ok {| output := [var_node name]; ops := []; prev := Ident |}).
  cbn [mbind result_mbind result_bind].
  change (shunt_step (punct Assign "=") _)
    with (Ok {| output := [var_node name]; ops := [assign_node]; prev := Assign |}).
  cbn [mbind result_mbind result_bind].
  destruct (shunt_expr e Hread [var_node name] [assign_node] Assign)
    as (o & pend & pv' & Hrun & Hpost & Hpend & _).
  - reflexivity.
  - change (top_prec [assign_node]) with 0.
    pose proof (level_range code_precedence e eq_refl). unfold entry.
    destruct (Z.leb_spec (level code_precedence e) 2); lia.
  - constructor; [reflexivity|constructor].
  - rewrite Hrun. cbn [mbind result_mbind result_bind output ops].
    assert (Hdrain : forall out, drain out (pend ++ [assign_node])
                                 = Ok (out ++ pend ++ [assign_node])).
    { clear -Hpend. induction Hpend as [|n pend Hn _ IH]; intros out; [reflexivity|].
      cbn [app drain]. rewrite (operator_not_lparen _ _ Hn), IH. list_norm. }
    rewrite Hdrain. cbn [app]. now rewrite app_assoc, Hpost.
Qed.

Section AssignmentFacts.
Context {libm : cmath.Lib}.

Lemma evalRPN_assignment_last (name : string) (e : expr) (env : Env) :
  evalRPN (var_node name :: postfix e ++ [assign_node]) env = (Err InvalidAssignment, env).
Proof.
  unfold evalRPN. cbn [existsb]. rewrite existsb_app, postfix_no_assign.
  change (is_kind (var_node name) KAssign || (false || existsb _ [assign_node])) with true.
  cbv iota.
  destruct (postfix_head e) as (v & rest & ->).
  change (kind_at (var_node name :: (num_node v :: rest) ++ [assign_node]) 1 KAssign)
    with false.
  cbn [negb]. now rewrite orb_true_r.
Qed.

End AssignmentFacts.

(** The two pure passes of [evaluate] on a given line, computed. *)
Ltac run_passes :=
  unfold evaluate;
  match goal with
  | |- context [preprocessFuncCalls ?l] =>
      let r := eval vm_compute in (preprocessFuncCalls l) in
      change (preprocessFuncCalls l) with r
  end; cbv iota beta;
  try match goal with
      | |- context [toRPN ?l] =>
          let r := eval vm_compute in (toRPN l) in change (toRPN l) with r
      end; cbv iota beta.

Section Claims.
Context {libm : cmath.Lib}.

(** C1, as the code has it. On a line [name = expression] the parser
    leaves the Assignment marker on its operator stack until the end of the
    line, so the marker is the last node of the postfix form and not the
    second: the evaluator rejects the line with InvalidAssignment, nothing
    is returned and nothing is stored. *)
Theorem assignment_line_is_rejected (name : string) (e : expr) (line : string) (env : Env) :
  reads_as code_precedence e ->
  tokenize (chars line) = Ok (assignment_tokens name e) ->
  toRPN (chars line) = Ok (var_node name :: postfix e ++ [assign_node])
  /\ evaluate line env = (Err InvalidAssignment, env)
  /\ vars (snd (evaluate line env)) !! name = vars env !! name.
Proof.
  intros Hread Htok.
  assert (He : evaluate line env = (Err InvalidAssignment, env)).
  { unfold evaluate.
    rewrite (preprocess_assignment name e _ Htok), (toRPN_assignment name e _ Hread Htok).
    apply evalRPN_assignment_last. }
  split; [now apply toRPN_assignment|]. split; [exact He|]. now rewrite He.
Qed.

(** C2, as the code has it. The value of a line that is the text of an
    arithmetic expression without variables is the value of the expression
    read with the unary minus binding tightest, then [^] grouping to the
    right, then [* /] and then [+ -] grouping to the left: each operator
    applied to the values of its operands, DivisionByZero when a divisor
    is zero. *)
Theorem parser_precedence (e : expr) (line : string) (env : Env) :
  reads_as code_precedence e ->
  tokenize (chars line) = Ok (tokens e) ->
  evaluate line env = (value e, env).
Proof.
  intros Hread Htok. unfold evaluate.
  rewrite (preprocess_expr e _ Htok), (toRPN_expr e _ Hread Htok).
  apply evalRPN_postfix.
Qed.

(** C3. A minus is unary exactly when the token before it is absent, a
    left parenthesis, a comma, an assignment sign or an operator; it is
    then pushed as the operator "u-", right-associative and of the highest
    precedence of the table. So "-3+2" is -1, "3-2" is 1 and "2^-1" is
    [pow(2,-1)], which is 0.5. *)
Theorem unary_minus_rule (Hpow : cmath.pow 2%float (-1)%float = 0.5%float) :
  (forall prev,
      unary prev = true
      <-> In prev [End; LParen; Comma; Assign; Plus; Minus; Star; Slash; Caret])
  /\ prev {| output := []; ops := []; prev := End |} = End
  /\ (forall tok st, Token.t tok = Minus ->
        exists out' ops',
          shunt_step tok st
          = Ok {| output := out';
                  ops := op_node (if unary (prev st) then "u-" else "-") :: ops';
                  prev := Minus |})
  /\ find OP "u-" = Some (Build_OpInfo 4 true 1)
  /\ (forall sym oi, find OP sym = Some oi -> sym <> "u-"%string -> prec oi < 4)
  /\ (forall env, evaluate "-3+2" env = (Ok (-1)%float, env))
  /\ (forall env, evaluate "3-2" env = (Ok 1%float, env))
  /\ (forall env, evaluate "2^-1" env = (Ok 0.5%float, env)).
Proof.
  repeat match goal with |- _ /\ _ => split end.
  - intros p. destruct p; cbn; intuition (try discriminate; try congruence).
  - reflexivity.
  - intros tok st Ht. unfold shunt_step. rewrite Ht.
    unfold operator_symbol. cbn [symbol_of].
    destruct (unary (prev st)); cbn [andb String.eqb Ascii.eqb Bool.eqb];
      match goal with
      | |- context [pop_until ?f ?a ?b] => destruct (pop_until f a b) as [o1 o2]
      end; eauto.
  - reflexivity.
  - intros sym oi H Hne. unfold OP, find in H.
    repeat match type of H with
           | context [if String.eqb ?a sym then _ else _] =>
               destruct (String.eqb_spec a sym)
           end; inversion H; subst; cbn; try lia; congruence.
  - intros env. run_passes. reflexivity.
  - intros env. run_passes. reflexivity.
  - intros env. rewrite <- Hpow. run_passes. reflexivity.
Qed.

(** C4. A Variable node is resolved against the table of unary functions,
    then the table of binary functions, then the environment, which is
    read only for a name in neither table: "sin(1)" is the sine of 1 also
    when the environment binds [sin] to 5, and a name found nowhere fails
    with UndefinedVariable. *)
Theorem function_tables_shadow_variables :
  (forall (name : string) (st : list float) (env : Env),
      eval_node (var_node name) st env
      = match find UF name with
        | Some f =>
            match st with
            | [] => (Err (MissingArgument name), env)
            | a :: st' => (Ok (f a :: st'), env)
            end
        | None =>
            match find BF name with
            | Some g =>
                match st with
                | b :: a :: st' => (Ok (g a b :: st'), env)
                | _ => (Err (MissingArgument name), env)
                end
            | None =>
                match vars env !! name with
                | Some v => (Ok (v :: st), env)
                | None => (Err (UndefinedVariable name), env)
                end
            end
        end)
  /\ find UF "sin" = Some cmath.sin
  /\ (forall env,
        let env5 := {| vars := <["sin" := 5%float]> (vars env);
                       precision := precision env |} in
        vars env5 !! "sin" = Some 5%float
        /\ evaluate "sin(1)" env5 = (Ok (cmath.sin 1%float), env5))
  /\ evaluate "y" {| vars := ∅; precision := 10 |}
     = (Err (UndefinedVariable "y"), {| vars := ∅; precision := 10 |}).
Proof.
  split; [|split; [|split]].
  - intros name st env. unfold eval_node. cbn [Node.k var_node Node.text].
    destruct (find UF name); [now destruct st|].
    destruct (find BF name); [now destruct st as [|? [|? ?]]|].
    unfold_eval. now destruct (vars env !! name).
  - reflexivity.
  - intros env env5. split; [apply lookup_insert_eq|].
    run_passes. reflexivity.
  - run_passes. reflexivity.
Qed.

(** C5. Division fails with DivisionByZero exactly when the right operand
    compares equal to 0.0 (the comparison [==] of IEEE-754, which a zero of
    either sign satisfies and a NaN does not), and is the IEEE-754 quotient
    otherwise: "1/0" fails, "0/1" is 0.0. *)
Theorem division_by_zero :
  (forall (a b : float) (st : list float),
      applyOp "/" (b :: a :: st)
      = if (b =? 0)%float then Err DivisionByZero else Ok (a / b)%float)
  /\ (forall (a b : float) (st : list float) (env : Env),
        eval_node (op_node "/") (b :: a :: st) env
        = if (b =? 0)%float then (Err DivisionByZero, env)
          else (Ok ((a / b)%float :: st), env))
  /\ applyOp "/" [neg_zero; 1%float] = Err DivisionByZero
  /\ applyOp "/" [nan; 1%float] = Ok nan
  /\ (forall env, evaluate "1/0" env = (Err DivisionByZero, env))
  /\ (forall env, evaluate "0/1" env = (Ok 0%float, env)).
Proof.
  repeat match goal with |- _ /\ _ => split end.
  - reflexivity.
  - intros a b st env. unfold eval_node. cbn. unfold_eval.
    change (applyOp "/" (b :: a :: st))
      with (if (b =? 0)%float then Err DivisionByZero else Ok (a / b)%float).
    now destruct (b =? 0)%float.
  - reflexivity.
  - reflexivity.
  - intros env. run_passes. reflexivity.
  - intros env. run_passes. reflexivity.
Qed.

(** C6, as the code has it. With an Assignment node in the sequence,
    evaluation fails with InvalidAssignment exactly when the sequence has
    fewer than three nodes, or its first node is not a Variable, or its
    second node is not an Assignment, and the environment is then left
    alone; Assignment nodes further on are passed over by the evaluation
    of the right-hand side. *)
Theorem assignment_guard (rpn : list Node) (env : Env) :
  (fst (evalRPN rpn env) = Err InvalidAssignment
   <-> hasAssign rpn = true /\ assignment_head rpn = false)
  /\ (fst (evalRPN rpn env) = Err InvalidAssignment -> snd (evalRPN rpn env) = env)
  /\ (forall st,
        eval_nodes (drop 2 rpn) st env
        = eval_nodes (List.filter (fun n => negb (is_kind n KAssign)) (drop 2 rpn)) st env).
Proof.
  split; [|split].
  - unfold evalRPN, hasAssign, assignment_head.
    destruct (existsb _ rpn).
    + destruct (_ || _ || _); cbn; [intuition congruence|].
      split; [|intros [_ H]; discriminate].
      unfold mbind, eval_mbind, eval_bind.
      destruct (eval_nodes (drop 2 rpn) [] env) as [[stk|e0] env0] eqn:E.
      * destruct stk as [|v [|? ?]]; unfold_eval; cbn; discriminate.
      * cbn. intros H. inversion H; subst.
        apply eval_nodes_error in E. discriminate.
    + split; [|intros [H _]; discriminate].
      unfold mbind, eval_mbind, eval_bind.
      destruct (eval_nodes rpn [] env) as [[stk|e0] env0] eqn:E.
      * destruct stk as [|v [|? ?]]; unfold_eval; cbn; discriminate.
      * cbn. intros H. inversion H; subst.
        apply eval_nodes_error in E. discriminate.
  - intros H. destruct (evalRPN rpn env) as [r env'] eqn:E. cbn in *. subst r.
    now apply evalRPN_error_env in E.
  - intros st. apply eval_nodes_skip. intros n Hn. unfold inert.
    apply negb_false_iff in Hn. rewrite Hn. now rewrite !orb_true_r.
Qed.

(** C7. A line that fails leaves the environment as it was: the only
    write is the store of an assignment, made once its right-hand side has
    evaluated to the single value that the line returns. *)
Theorem failed_line_keeps_env (line : string) (env env' : Env) (r : result float) :
  evaluate line env = (r, env') ->
  (forall e, r = Err e -> env' = env)
  /\ (forall v, r = Ok v ->
        env' = env
        \/ exists name,
             env' = {| vars := <[name := v]> (vars env); precision := precision env |}).
Proof.
  unfold evaluate.
  destruct (preprocessFuncCalls (chars line)) as [pre|e1];
    [|intros H; inversion H; subst; split; [reflexivity|discriminate]].
  destruct (toRPN pre) as [rpn|e2];
    [|intros H; inversion H; subst; split; [reflexivity|discriminate]].
  intros H. split.
  - intros e ->. now apply evalRPN_error_env in H.
  - intros v ->. now apply evalRPN_ok_env in H.
Qed.

(** C8. The arguments of a call are copied as they are, a call among them
    included: "pow(2, sqrt(9))" becomes "(2  sqrt(9)) pow", whose postfix
    form applies [sqrt] to 2 and [pow] to that and 9. The line evaluates
    to [pow(sqrt(2), 9)], which is not 8.0. *)
Theorem nested_call_is_misparsed
    (Hpow : cmath.pow (cmath.sqrt 2%float) 9%float <> 8%float) :
  (forall s args rest,
      call_args ("("%char :: s) 0 [] [] = Some (args, rest) ->
      exists inside, s = inside ++ ")"%char :: rest /\ commas args = inside)
  /\ preprocessFuncCalls (chars "pow(2, sqrt(9))") = Ok (chars "(2  sqrt(9)) pow")
  /\ toRPN (chars "(2  sqrt(9)) pow")
     = Ok [num_node 2%float; var_node "sqrt"; num_node 9%float; var_node "pow"]
  /\ (forall env,
        evaluate "pow(2, sqrt(9))" env
        = (Ok (cmath.pow (cmath.sqrt 2%float) 9%float), env))
  /\ (forall env, fst (evaluate "pow(2, sqrt(9))" env) <> Ok 8%float).
Proof.
  assert (He : forall env, evaluate "pow(2, sqrt(9))" env
                           = (Ok (cmath.pow (cmath.sqrt 2%float) 9%float), env)).
  { intros env. run_passes. reflexivity. }
  repeat match goal with |- _ /\ _ => split end.
  - intros s args rest H. cbn [call_args] in H.
    change (is_char "(" "(") with true in H. cbv iota in H.
    change (1 <? 0 + 1) with false in H. cbv iota in H.
    apply call_args_raw in H as (inside & -> & Hc); [|lia].
    exists inside. split; [reflexivity|exact Hc].
  - vm_compute. reflexivity.
  - vm_compute. reflexivity.
  - exact He.
  - intros env. rewrite He. cbn. intros H. inversion H. contradiction.
Qed.

(** C9. The exponent marker of a number is consumed exactly when a digit
    follows it, after at most one sign; otherwise nothing of it is, and
    the next token starts at the marker: "1e" is the number 1 and then
    the identifier "e", "1e+2" is the one number 100. *)
Theorem exponent_marker_needs_digit :
  (forall s, starts_exponent s <-> fst (Lexer.exponent s) <> [])
  /\ (forall s, fst (Lexer.exponent s) ++ snd (Lexer.exponent s) = s)
  /\ (forall c r, isdigit c = true ->
        Lexer.next (c :: r)
        = let '(m, r1) := Lexer.mantissa false r in
          let '(e, r2) := Lexer.exponent r1 in
          Ok (Token.mk Number (strtod (c :: m ++ e)) "", r2))
  /\ Lexer.next (chars "1e") = Ok (Token.mk Number 1%float "", chars "e")
  /\ Lexer.next (chars "e") = Ok (Token.mk Ident 0%float "e", [])
  /\ Lexer.next (chars "1e+2") = Ok (Token.mk Number 100%float "", [])
  /\ tokenize (chars "1e") = Ok [Token.mk Number 1%float ""; Token.mk Ident 0%float "e"]
  /\ tokenize (chars "1e+2") = Ok [Token.mk Number 100%float ""].
Proof.
  split; [|split; [|split]].
  - intros s. split.
    + intros (m & sign & d & r & -> & Hm & Hsign & Hd).
      now rewrite exponent_taken.
    + intros H. destruct (exponent_cases s) as [Hs|Hs]; [exact Hs|].
      rewrite Hs in H. now destruct H.
  - intros s. destruct (exponent_cases s) as [(m & sign & d & r & -> & Hm & Hsign & Hd)|Hs].
    + rewrite exponent_taken by assumption. simpl.
      rewrite <- app_assoc. simpl. now rewrite span_app.
    + now rewrite Hs.
  - intros c r Hc. unfold Lexer.next. simpl.
    rewrite (digit_not_space c Hc). simpl. unfold Lexer.scan.
    rewrite Hc, (digit_not_dot c Hc). reflexivity.
  - repeat split; vm_compute; reflexivity.
Qed.

(** C10. On a node sequence without an Assignment node the evaluator
    leaves the environment, variables and precision, as it was, whether
    it returns a value or fails. *)
Theorem no_assignment_no_mutation (rpn : list Node) (env : Env) :
  existsb (fun n => is_kind n KAssign) rpn = false ->
  snd (evalRPN rpn env) = env
  /\ vars (snd (evalRPN rpn env)) = vars env
  /\ precision (snd (evalRPN rpn env)) = precision env.
Proof.
  intros H. now rewrite (evalRPN_no_assign_env rpn env H).
Qed.

(** Lines of the program's help text and of its error cases. *)
Example line_pow (env : Env) :
  evaluate "pow(2,8)" env = (Ok (cmath.pow 2%float 8%float), env).
Proof. run_passes. reflexivity. Qed.

Example line_sqrt (env : Env) :
  evaluate "sqrt(16)" env = (Ok (cmath.sqrt 16%float), env).
Proof. run_passes. reflexivity. Qed.

Example line_open_paren (env : Env) :
  evaluate "(1+2" env = (Err UnbalancedParens, env).
Proof. run_passes. reflexivity. Qed.

Example line_close_paren (env : Env) :
  evaluate "1+2)" env = (Err UnbalancedParens, env).
Proof. run_passes. reflexivity. Qed.

Example line_comma (env : Env) :
  evaluate "1,2" env = (Err MisplacedSeparator, env).
Proof. run_passes. reflexivity. Qed.

Example line_symbol (env : Env) :
  evaluate "1 $ 2" env = (Err (LexError "$"), env).
Proof. run_passes. reflexivity. Qed.

Example line_unclosed_call (env : Env) :
  evaluate "sin(1" env = (Err UnbalancedCallParens, env).
Proof. run_passes. reflexivity. Qed.

End Claims.

(** ** Instances *)

Lemma failed_line_keeps_env_witness :
  snd (@evaluate sample_libm "1/0" (@Env_new sample_libm)) = @Env_new sample_libm.
Proof.
  apply (@failed_line_keeps_env sample_libm "1/0" (@Env_new sample_libm) _
           (Err DivisionByZero)) with (e := DivisionByZero).
  - vm_compute. reflexivity.
  - reflexivity.
Defined.

Lemma no_assignment_no_mutation_witness :
  snd (@evalRPN sample_libm [num_node 1%float; num_node 2%float; op_node "+"]
         (@Env_new sample_libm))
  = @Env_new sample_libm.
Proof.
  apply (@no_assignment_no_mutation sample_libm). reflexivity.
Defined.

Lemma unary_minus_rule_witness :
  @evaluate sample_libm "2^-1" (@Env_new sample_libm)
  = (Ok 0.5%float, @Env_new sample_libm).
Proof.
  assert (Hpow : @cmath.pow sample_libm 2%float (-1)%float = 0.5%float)
    by (vm_compute; reflexivity).
  apply (@unary_minus_rule sample_libm Hpow).
Defined.

Lemma nested_call_is_misparsed_witness :
  fst (@evaluate sample_libm "pow(2, sqrt(9))" (@Env_new sample_libm)) <> Ok 8%float.
Proof.
  apply (@nested_call_is_misparsed sample_libm).
  intros H. apply (f_equal (fun z => PrimFloat.eqb z 8%float)) in H.
  vm_compute in H. discriminate H.
Defined.

(** C6, as stated, fails: the line "x=(=)5" parses to
    [x, Assignment, 5, Assignment], which has an extra Assignment node among
    the rhs nodes, and it evaluates to 5 and stores it. *)
Lemma extra_assignment_is_accepted :
  let rpn := [var_node "x"; assign_node; num_node 5%float; assign_node] in
  toRPN (chars "x=(=)5") = Ok rpn
  /\ hasAssign rpn = true
  /\ exact_assignment_shape rpn = false
  /\ fst (@evalRPN sample_libm rpn (@Env_new sample_libm)) = Ok 5%float
  /\ fst (@evalRPN sample_libm rpn (@Env_new sample_libm)) <> Err InvalidAssignment
  /\ vars (snd (@evalRPN sample_libm rpn (@Env_new sample_libm))) !! "x" = Some 5%float.
Proof.
  cbv zeta. repeat match goal with |- _ /\ _ => split end;
    try (vm_compute; reflexivity).
  vm_compute. discriminate.
Qed.

Lemma parser_precedence_witness :
  @evaluate sample_libm "-2^2 + 3*(4 - 1e0)/.5" (@Env_new sample_libm)
  = (Ok 22%float, @Env_new sample_libm).
Proof.
  apply (@parser_precedence sample_libm
           (EBin Add (EBin Pow (ENeg (ENum 2)) (ENum 2))
              (EBin Div (EBin Mul (ENum 3) (EParen (EBin Sub (ENum 4) (ENum 1))))
                 (ENum 0.5)))).
  - cbn. repeat split; lia.
  - vm_compute. reflexivity.
Defined.

(** C2, as stated, fails: with [^] above the unary minus, "-2^2" reads as
    the opposite of 2^2, which is -4; the line evaluates to the square of
    -2, which is 4. *)
Lemma standard_precedence_fails :
  let e := ENeg (EBin Pow (ENum 2) (ENum 2)) in
  reads_as standard_precedence e
  /\ tokenize (chars "-2^2") = Ok (tokens e)
  /\ @value sample_libm e = Ok (-4)%float
  /\ fst (@evaluate sample_libm "-2^2" (@Env_new sample_libm)) = Ok 4%float
  /\ fst (@evaluate sample_libm "-2^2" (@Env_new sample_libm)) <> @value sample_libm e.
Proof.
  cbv zeta. repeat match goal with |- _ /\ _ => split end.
  - cbn. repeat split; lia.
  - vm_compute. reflexivity.
  - vm_compute. reflexivity.
  - vm_compute. reflexivity.
  - intros H. vm_compute in H.
    apply (f_equal (fun r => match r with Ok z => PrimFloat.eqb z 4%float | Err _ => false end))
      in H.
    vm_compute in H. discriminate H.
Qed.

Lemma assignment_line_is_rejected_witness :
  toRPN (chars "x=5") = Ok [var_node "x"; num_node 5%float; assign_node]
  /\ @evaluate sample_libm "x=5" (@Env_new sample_libm)
     = (Err InvalidAssignment, @Env_new sample_libm)
  /\ vars (snd (@evaluate sample_libm "x=5" (@Env_new sample_libm))) !! "x"
     = vars (@Env_new sample_libm) !! "x".
Proof.
  apply (@assignment_line_is_rejected sample_libm "x" (ENum 5%float) "x=5").
  - exact I.
  - vm_compute. reflexivity.
Defined.


(** * Further properties of the code *)

(** ** trim *)

Lemma span_whole (p : ascii -> bool) (s : list ascii) :
  Forall (fun c => p c = true) s -> span p s = (s, []).
Proof.
  induction 1 as [|c s Hc _ IH]; [reflexivity|].
  cbn [span]. now rewrite Hc, IH.
Qed.

Lemma span_prefix (p : ascii -> bool) (pre s : list ascii) :
  Forall (fun c => p c = true) pre ->
  head_not p s ->
  span p (pre ++ s) = (pre, s).
Proof.
  intros Hpre Hs. induction Hpre as [|c pre Hc _ IH].
  - now apply span_none.
  - cbn [app span]. now rewrite Hc, IH.
Qed.

(** X1. [trim] removes spaces at both ends and nothing else: the text is
    the trimmed text between two runs of spaces, and the trimmed text
    neither starts nor ends with a space. *)
Theorem trim_shape (s : list ascii) :
  exists pre post,
    s = pre ++ trim s ++ post
    /\ Forall (fun c => isspace c = true) pre
    /\ Forall (fun c => isspace c = true) post
    /\ no_space_ends (trim s).
Proof.
  unfold trim, ltrim, rtrim, no_space_ends.
  pose proof (span_app isspace (rev s)) as Hr.
  pose proof (span_all isspace (rev s)) as Hra.
  pose proof (span_stops isspace (rev s)) as Hrs.
  destruct (span isspace (rev s)) as [a b]. cbn [fst snd] in *.
  pose proof (span_app isspace (rev b)) as Hl.
  pose proof (span_all isspace (rev b)) as Hla.
  pose proof (span_stops isspace (rev b)) as Hls.
  destruct (span isspace (rev b)) as [c d]. cbn [fst snd] in *.
  exists c, (rev a). repeat split.
  - rewrite <- (rev_involutive s), <- Hr, rev_app_distr, <- Hl. list_norm.
  - exact Hla.
  - now apply Forall_rev.
  - exact Hls.
  - assert (Hb : b = rev d ++ rev c)
      by (rewrite <- rev_app_distr, Hl; now rewrite rev_involutive).
    destruct (rev d) as [|x rd]; [exact I|]. now rewrite Hb in Hrs.
Qed.

Lemma trim_padding (pre t post : list ascii) :
  Forall (fun c => isspace c = true) pre ->
  Forall (fun c => isspace c = true) post ->
  no_space_ends t ->
  trim (pre ++ t ++ post) = t.
Proof.
  intros Hpre Hpost [Hhead Hlast]. unfold trim, ltrim, rtrim.
  rewrite !rev_app_distr, <- app_assoc.
  rewrite span_skip by now apply Forall_rev.
  destruct t as [|x t'].
  - cbn [rev app]. rewrite (span_whole isspace (rev pre)) by now apply Forall_rev.
    reflexivity.
  - rewrite (span_none isspace (rev (x :: t') ++ rev pre)).
    + cbn [snd]. rewrite rev_app_distr, !rev_involutive.
      now rewrite span_prefix.
    + destruct (rev (x :: t')) as [|y r] eqn:Hrev; [|exact Hlast].
      apply (f_equal (@length ascii)) in Hrev. rewrite length_rev in Hrev. discriminate.
Qed.

Lemma trim_fixed (t : list ascii) : no_space_ends t -> trim t = t.
Proof.
  intros Ht. rewrite <- (app_nil_r t) at 1.
  apply (trim_padding [] t []); [constructor|constructor|exact Ht].
Qed.

(** X2. [trim] is determined by that shape: a text put between two runs of
    spaces trims to itself when it has no space at either end; so the
    spaces around a line do not matter, and trimming twice changes
    nothing. *)
Theorem trim_unique (pre t post : list ascii) :
  Forall (fun c => isspace c = true) pre ->
  Forall (fun c => isspace c = true) post ->
  no_space_ends t ->
  trim (pre ++ t ++ post) = t /\ trim t = t.
Proof.
  intros Hpre Hpost Ht. split; [now apply trim_padding|now apply trim_fixed].
Qed.

(** ** The lexer *)

Lemma scan_text (c : ascii) (r : list ascii) (tok : Token) (rest : list ascii) :
  Lexer.scan c r = Ok (tok, rest) -> exists text, c :: r = (c :: text) ++ rest.
Proof.
  unfold Lexer.scan. destruct (isdigit c || is_char c ".").
  - pose proof (mantissa_app (is_char c ".") r) as Hm.
    destruct (Lexer.mantissa (is_char c ".") r) as [m r1]. cbn [fst snd] in Hm.
    destruct (exponent_cases r1) as [(mk & sign & d & r' & -> & Hmk & Hsign & Hd)|Hex].
    + rewrite exponent_taken by assumption. intros H. inversion H; subst.
      exists (m ++ mk :: sign ++ d :: fst (span isdigit r')).
      rewrite <- (span_app isdigit r') at 1. list_norm.
    + rewrite Hex. intros H. inversion H; subst. exists m. reflexivity.
  - destruct (Lexer.isIdentStart c).
    { pose proof (span_app Lexer.isIdentChar r) as Hsp.
      destruct (span Lexer.isIdentChar r) as [a r1]. cbn [fst snd] in Hsp.
      intros H. inversion H; subst. now exists a. }
    intros H.
    repeat match type of H with
           | (if is_char c ?x then _ else _) = _ => destruct (is_char c x)
           end;
      try discriminate H; inversion H; subst; now exists [].
Qed.

(** X3. The cursor of the lexer only moves forward: a call of [next]
    consumes a run of spaces and the text of the token it returns, and
    leaves the rest of the input as it is; the text of a token is empty
    for [End] alone, which is returned when nothing but spaces is left. *)
Theorem next_consumes (s : list ascii) (tok : Token) (rest : list ascii) :
  Lexer.next s = Ok (tok, rest) ->
  exists ws text,
    s = ws ++ text ++ rest
    /\ Forall (fun c => isspace c = true) ws
    /\ head_not isspace text
    /\ (Token.t tok = End <-> text = [])
    /\ (Token.t tok = End -> rest = [])
    /\ (Token.t tok <> End -> (length rest < length s)%nat).
Proof.
  intros Hnext. pose proof (next_shrinks s tok rest Hnext) as Hless.
  unfold Lexer.next in Hnext.
  pose proof (span_app isspace s) as Hs.
  pose proof (span_all isspace s) as Hws.
  pose proof (span_stops isspace s) as Hstop.
  destruct (span isspace s) as [ws s1]. cbn [fst snd] in *.
  destruct s1 as [|c r].
  - inversion Hnext; subst tok rest. exists ws, [].
    split; [now rewrite <- Hs|]. split; [exact Hws|]. split; [exact I|].
    split; [split; reflexivity|]. split; [reflexivity|].
    intros H. now destruct H.
  - destruct (scan_text c r tok rest Hnext) as (text & Htext).
    apply scan_length in Hnext as [_ Hend].
    exists ws, (c :: text). split; [now rewrite <- Hs, Htext|].
    split; [exact Hws|]. split; [exact Hstop|].
    split; [split; [intros H; now destruct Hend|discriminate]|].
    split; [intros H; now destruct Hend|exact Hless].
Qed.

Lemma starts_token_false (c : ascii) :
  starts_token c = false ->
  forall r, Lexer.scan c r = Err (LexError c).
Proof.
  unfold starts_token. cbn [chars list_ascii_of_string existsb]. intros H r.
  repeat match goal with
         | E : _ || _ = false |- _ => apply orb_false_iff in E as [? ?]
         end.
  unfold Lexer.scan.
  repeat match goal with
         | E : ?b = false |- context [?b] => rewrite E
         end.
  reflexivity.
Qed.

(** X4. The lexer fails exactly on a character that is neither a space
    nor the start of a token (a digit, a dot, a letter, an underscore or
    one of the nine signs), and reports that character. *)
Theorem lex_error_iff (s : list ascii) (e : EvalError) :
  Lexer.next s = Err e
  <-> exists ws c r,
        s = ws ++ c :: r
        /\ Forall (fun x => isspace x = true) ws
        /\ isspace c = false
        /\ starts_token c = false
        /\ e = LexError c.
Proof.
  split.
  - unfold Lexer.next.
    pose proof (span_app isspace s) as Hs.
    pose proof (span_all isspace s) as Hws.
    pose proof (span_stops isspace s) as Hstop.
    destruct (span isspace s) as [ws s1]. cbn [fst snd] in *.
    destruct s1 as [|c r]; [discriminate|].
    intros H. exists ws, c, r. repeat split; auto.
    + unfold starts_token. cbn [chars list_ascii_of_string existsb].
      unfold Lexer.scan in H.
      repeat match type of H with
             | (if ?b then _ else _) = _ => destruct b eqn:?
             | (let '(_, _) := ?x in _) = _ => destruct x
             end; try discriminate H.
      reflexivity.
    + unfold Lexer.scan in H.
      repeat match type of H with
             | (if ?b then _ else _) = _ => destruct b
             | (let '(_, _) := ?x in _) = _ => destruct x
             end; try discriminate H.
      now inversion H.
  - intros (ws & c & r & -> & Hws & Hc & Htok & ->).
    unfold Lexer.next. rewrite span_prefix by assumption. cbn [snd].
    now apply starts_token_false.
Qed.

(** X5. An identifier token is the longest run of letters, digits and
    underscores at the cursor; it starts with a letter or an underscore,
    and its value is 0. *)
Theorem ident_token_shape (s : list ascii) (tok : Token) (rest : list ascii) :
  Lexer.next s = Ok (tok, rest) ->
  Token.t tok = Ident ->
  exists c a,
    tok = Token.mk Ident 0%float (string_of_list_ascii (c :: a))
    /\ Lexer.isIdentStart c = true
    /\ Forall (fun x => Lexer.isIdentChar x = true) a
    /\ head_not Lexer.isIdentChar rest
    /\ exists ws, s = ws ++ c :: a ++ rest /\ Forall (fun x => isspace x = true) ws.
Proof.
  unfold Lexer.next.
  pose proof (span_app isspace s) as Hs.
  pose proof (span_all isspace s) as Hws.
  destruct (span isspace s) as [ws s1]. cbn [fst snd] in *.
  destruct s1 as [|c r]; [intros H; inversion H; subst; discriminate|].
  unfold Lexer.scan. destruct (isdigit c || is_char c ".").
  - destruct (Lexer.mantissa (is_char c ".") r) as [m r1].
    destruct (Lexer.exponent r1) as [ex r2]. intros H Hty. inversion H; subst. discriminate.
  - destruct (Lexer.isIdentStart c) eqn:Hstart.
    + pose proof (span_app Lexer.isIdentChar r) as Hsp.
      pose proof (span_all Lexer.isIdentChar r) as Hall.
      pose proof (span_stops Lexer.isIdentChar r) as Hstop.
      destruct (span Lexer.isIdentChar r) as [a r1]. cbn [fst snd] in *.
      intros H _. inversion H; subst tok rest. exists c, a.
      repeat split; auto. exists ws. split; [now rewrite <- Hs, <- Hsp|exact Hws].
    + intros H Hty.
      repeat match type of H with
             | (if is_char c ?x then _ else _) = _ => destruct (is_char c x)
             end;
        try discriminate H; inversion H; subst; discriminate.
Qed.

(** ** The parser: what it writes and what it rejects *)

Lemma pop_until_nodes (stop : Node -> bool) (out stk : list Node) :
  (forall n, stack_node n = true -> stop n = false -> rpn_node n = true) ->
  Forall (fun n => rpn_node n = true) out ->
  Forall (fun n => stack_node n = true) stk ->
  Forall (fun n => rpn_node n = true) (fst (pop_until stop out stk))
  /\ Forall (fun n => stack_node n = true) (snd (pop_until stop out stk)).
Proof.
  intros Hstop Hout Hstk. revert out Hout.
  induction Hstk as [|top below Htop Hbelow IH]; intros out Hout; cbn [pop_until].
  - now split.
  - destruct (stop top) eqn:Hs.
    + cbn [fst snd]. split; [exact Hout|now constructor].
    + apply IH. apply Forall_app. split; [exact Hout|].
      constructor; [now apply Hstop|constructor].
Qed.

Lemma yields_is_operator (oi : OpInfo) (n : Node) :
  yields_to oi n = true -> rpn_node n = true.
Proof.
  unfold yields_to, rpn_node, is_kind.
  destruct (Node.k n); cbn; try discriminate.
  now destruct (find OP (Node.text n)).
Qed.

Lemma operator_symbol_known (ty pv : TokType) :
  isOpTok ty = true -> rpn_node (op_node (operator_symbol ty pv)) = true.
Proof.
  unfold operator_symbol. destruct ty; try discriminate; intros _;
    destruct (unary pv); reflexivity.
Qed.

Lemma shunt_operator_nodes (ty : TokType) (st st' : Shunt) :
  isOpTok ty = true ->
  (let sym := operator_symbol ty (prev st) in
   let oi := OP_at sym in
   let '(out', ops') := pop_until (fun n => negb (yields_to oi n)) (output st) (ops st) in
   Ok {| output := out'; ops := op_node sym :: ops'; prev := ty |}) = Ok st' ->
  shunt_inv st -> shunt_inv st'.
Proof.
  intros Hop Hstep [Hout Hstk]. cbv zeta in Hstep.
  set (oi := OP_at (operator_symbol ty (prev st))) in *.
  assert (Hstop : forall n, stack_node n = true -> negb (yields_to oi n) = false ->
                            rpn_node n = true).
  { intros n _ Hy. apply negb_false_iff in Hy. now apply yields_is_operator in Hy. }
  destruct (pop_until_nodes _ (output st) (ops st) Hstop Hout Hstk) as [Ho Hs].
  destruct (pop_until _ (output st) (ops st)) as [out' ops']. cbn [fst snd] in *.
  inversion Hstep; subst. split; cbn [output ops]; [exact Ho|].
  constructor; [|exact Hs]. unfold stack_node.
  now rewrite operator_symbol_known.
Qed.

Lemma shunt_step_nodes (tok : Token) (st st' : Shunt) :
  shunt_step tok st = Ok st' -> shunt_inv st -> shunt_inv st'.
Proof.
  unfold shunt_step. intros Hstep Hinv.
  assert (Hlp : forall n, stack_node n = true -> is_lparen n = false -> rpn_node n = true).
  { intros n Hn Hl. unfold stack_node in Hn. rewrite Hl in Hn. now rewrite orb_false_r in Hn. }
  destruct (Token.t tok) eqn:Hty;
    try (match type of Hty with
         | _ = ?ty => exact (shunt_operator_nodes ty st st' eq_refl Hstep Hinv)
         end);
    destruct Hinv as [Hout Hstk]; unfold shunt_inv.
  - inversion Hstep; subst; cbn [output ops]. split; [|exact Hstk].
    apply Forall_app. split; [exact Hout|]. now repeat constructor.
  - inversion Hstep; subst; cbn [output ops]. split; [|exact Hstk].
    apply Forall_app. split; [exact Hout|]. now repeat constructor.
  - inversion Hstep; subst; cbn [output ops]. split; [exact Hout|].
    now constructor.
  - destruct (pop_until_nodes is_lparen (output st) (ops st) Hlp Hout Hstk) as [Ho Hs].
    destruct (pop_until is_lparen (output st) (ops st)) as [out' ops']. cbn [fst snd] in *.
    destruct ops' as [|lp below]; [discriminate|].
    inversion Hs as [|? ? _ Hbelow]; subst.
    destruct below as [|f below'].
    + inversion Hstep; subst; cbn [output ops]. now split.
    + destruct (is_kind f KFunc) eqn:Hf.
      * exfalso. inversion Hbelow as [|? ? Hfn _]; subst.
        unfold stack_node, rpn_node, is_lparen, is_kind in *.
        destruct (Node.k f); cbn in *; discriminate.
      * inversion Hstep; subst; cbn [output ops]. now split.
  - assert (Hstop : forall n, stack_node n = true ->
                              is_kind n KArgSep || is_lparen n = false -> rpn_node n = true).
    { intros n Hn Hs. apply orb_false_iff in Hs as [_ Hs]. now apply Hlp. }
    destruct (pop_until_nodes _ (output st) (ops st) Hstop Hout Hstk) as [Ho Hs].
    destruct (pop_until _ (output st) (ops st)) as [out' ops']. cbn [fst snd] in *.
    destruct ops' as [|top below]; [discriminate|].
    inversion Hstep; subst; cbn [output ops]. split; [|exact Hs].
    apply Forall_app. split; [exact Ho|]. now repeat constructor.
  - inversion Hstep; subst; cbn [output ops]. split; [exact Hout|].
    now constructor.
  - discriminate.
Qed.

Lemma drain_nodes (out stk rpn : list Node) :
  drain out stk = Ok rpn ->
  Forall (fun n => rpn_node n = true) out ->
  Forall (fun n => stack_node n = true) stk ->
  Forall (fun n => rpn_node n = true) rpn.
Proof.
  intros Hd Hout Hstk. revert out Hd Hout.
  induction Hstk as [|top below Htop _ IH]; intros out Hd Hout; cbn [drain] in Hd.
  - now inversion Hd; subst.
  - destruct (is_lparen top) eqn:Hl; [discriminate|].
    apply (IH _ Hd). apply Forall_app. split; [exact Hout|].
    constructor; [|constructor]. unfold stack_node in Htop.
    rewrite Hl in Htop. now rewrite orb_false_r in Htop.
Qed.

Lemma toRPN_loop_nodes (fuel : nat) (s : list ascii) (st : Shunt) (rpn : list Node) :
  toRPN_loop fuel s st = Ok rpn -> shunt_inv st ->
  Forall (fun n => rpn_node n = true) rpn.
Proof.
  revert s st. induction fuel as [|fuel IH]; intros s st; [discriminate|].
  cbn [toRPN_loop]. unfold mbind, result_mbind, result_bind.
  destruct (Lexer.next s) as [[tok rest]|e]; [|discriminate].
  intros Hrun Hinv.
  assert (Hgo : match shunt_step tok st with
                | Ok st' => toRPN_loop fuel rest st'
                | Err e => Err e
                end = Ok rpn -> Forall (fun n => rpn_node n = true) rpn).
  { destruct (shunt_step tok st) as [st'|e] eqn:Hstep; [|discriminate].
    intros H. apply (IH _ _ H). now apply (shunt_step_nodes tok st). }
  destruct (Token.t tok); try (now apply Hgo).
  destruct Hinv as [Hout Hstk]. now apply (drain_nodes _ _ _ Hrun).
Qed.

(** X6. Whatever the line, the postfix program that [toRPN] returns holds
    only numbers, names, separators, Assignment markers and operators of
    the table [OP]: never a parenthesis, never a node of kind [KFunc]. *)
Theorem toRPN_writes_postfix_nodes (line : list ascii) (rpn : list Node) :
  toRPN line = Ok rpn -> forallb rpn_node rpn = true.
Proof.
  intros H. apply forallb_forall. apply List.Forall_forall.
  apply (toRPN_loop_nodes _ _ _ _ H). split; constructor.
Qed.

(** ** The errors of a line *)

Lemma preprocess_loop_error (fuel : nat) (s out : list ascii) (e : EvalError) :
  preprocess_loop fuel s out = Err e -> e = UnbalancedCallParens \/ e = OutOfFuel.
Proof.
  revert s out. induction fuel as [|fuel IH]; intros s out.
  - destruct s; [discriminate|]. cbn. intros H. inversion H. now right.
  - destruct s as [|c r]; [discriminate|]. cbn [preprocess_loop].
    destruct (isalpha c || is_char c "_"); [|apply IH].
    destruct (span Lexer.isIdentChar r) as [name after].
    destruct (snd (span isspace after)) as [|p' rest']; [apply IH|].
    destruct (is_char p' "("); [|apply IH].
    destruct (call_args (p' :: rest') 0 [] []) as [[args rest]|]; [apply IH|].
    intros H. inversion H. now left.
Qed.

Lemma toRPN_loop_error (fuel : nat) (s : list ascii) (st : Shunt) (e : EvalError) :
  toRPN_loop fuel s st = Err e ->
  e = OutOfFuel \/ (exists c, e = LexError c)
  \/ e = MisplacedSeparator \/ e = UnbalancedParens.
Proof.
  revert s st. induction fuel as [|fuel IH]; intros s st.
  - cbn. intros H. inversion H. now left.
  - cbn [toRPN_loop]. unfold mbind, result_mbind, result_bind.
    destruct (Lexer.next s) as [[tok rest]|e0] eqn:Hnext.
    + assert (Hgo : Token.t tok <> End ->
                    match shunt_step tok st with
                    | Ok st' => toRPN_loop fuel rest st'
                    | Err e => Err e
                    end = Err e ->
                    e = OutOfFuel \/ (exists c, e = LexError c)
                    \/ e = MisplacedSeparator \/ e = UnbalancedParens).
      { intros Hty. destruct (shunt_step tok st) as [st'|e1] eqn:Hstep; [apply IH|].
        intros H. inversion H; subst e1. unfold shunt_step in Hstep.
        destruct (Token.t tok); try (now destruct Hty);
          repeat match type of Hstep with
                 | (let '(_, _) := ?x in _) = _ => destruct x
                 | match ?l with [] => _ | _ :: _ => _ end = _ => destruct l
                 | (if ?b then _ else _) = _ => destruct b
                 end; inversion Hstep; auto. }
      destruct (Token.t tok); try (apply Hgo; discriminate).
      intros H. apply drain_error in H. auto.
    + intros H. inversion H; subst e0. right; left. revert Hnext.
      unfold Lexer.next. destruct (snd (span isspace s)) as [|c r]; [discriminate|].
      unfold Lexer.scan.
      repeat match goal with
             | |- (if ?b then _ else _) = _ -> _ => destruct b
             | |- (let '(_, _) := ?x in _) = _ -> _ => destruct x
             end; intros H'; inversion H'; eauto.
Qed.

Section Further.
Context {libm : cmath.Lib}.

Lemma applyOp_known (op : string) (st : list float) (e : EvalError) :
  is_Some (find OP op) -> applyOp op st = Err e -> reported e = true.
Proof.
  intros [oi Hop]. unfold applyOp. intros H.
  repeat match type of H with
         | context [if ?b then _ else _] => destruct b eqn:?
         | context [match ?l with [] => _ | _ :: _ => _ end] => destruct l
         end; inversion H; try reflexivity.
  exfalso. subst e. revert Hop. unfold OP, find.
  repeat match goal with
         | E : String.eqb op ?s = false |- _ =>
             rewrite (String.eqb_sym s op), E; clear E
         end.
  discriminate.
Qed.

Lemma eval_node_reported (n : Node) (st : list float) (env env' : Env) (e : EvalError) :
  rpn_node n = true -> eval_node n st env = (Err e, env') -> reported e = true.
Proof.
  unfold rpn_node, eval_node.
  destruct (Node.k n); intros Hn; unfold_eval; simpl; try discriminate.
  - destruct (find UF (Node.text n)); [destruct st; intros H; now inversion H|].
    destruct (find BF (Node.text n));
      [destruct st as [|? [|? ?]]; intros H; now inversion H|].
    destruct (vars env !! Node.text n); intros H; now inversion H.
  - destruct (length st <? _)%nat; [intros H; now inversion H|].
    destruct (applyOp (Node.text n) st) eqn:Ha; intros H; inversion H; subst.
    eapply applyOp_known; [|eauto].
    destruct (find OP (Node.text n)); [eauto|discriminate].
Qed.

Lemma eval_nodes_reported (ns : list Node) (st : list float) (env env' : Env)
    (e : EvalError) :
  Forall (fun n => rpn_node n = true) ns ->
  eval_nodes ns st env = (Err e, env') -> reported e = true.
Proof.
  intros Hns. revert st.
  induction Hns as [|n ns Hn Hns IH]; intros st; simpl; [discriminate|].
  unfold mbind, eval_mbind, eval_bind.
  destruct (eval_node n st env) as [[st'|e0] env0] eqn:E.
  - pose proof (eval_node_env n st env) as Hn'. rewrite E in Hn'. simpl in Hn'. subst env0.
    apply IH.
  - intros H; inversion H; subst. eapply eval_node_reported; eauto.
Qed.

Lemma evalRPN_reported (rpn : list Node) (env env' : Env) (e : EvalError) :
  Forall (fun n => rpn_node n = true) rpn ->
  evalRPN rpn env = (Err e, env') -> reported e = true.
Proof.
  intros Hrpn. unfold evalRPN.
  destruct (existsb _ rpn);
    [destruct (_ || _ || _); [unfold throw; intros H; now inversion H|]|];
    unfold mbind, eval_mbind, eval_bind;
    match goal with
    | |- context [eval_nodes ?ns ?st env] =>
        assert (Hns : Forall (fun n => rpn_node n = true) ns)
          by (try apply Forall_drop; exact Hrpn);
        pose proof (eval_nodes_reported ns st env) as Hn;
        destruct (eval_nodes ns st env) as [[stk|e0] env0]
    end;
    try (intros H; inversion H; subst; now eapply Hn);
    destruct stk as [|v [|? ?]]; unfold_eval; simpl; intros H; now inversion H.
Qed.

(** X7. Two of the messages of the source can never be printed.  Whatever
    the line and the environment, a failed line reports neither an
    unexpected token (the last [else] of the loop of [toRPN]: the lexer makes
    no such token) nor an unknown operator (the last line of [applyOp]:
    [toRPN] only writes operators of the table [OP], and [applyOp] has a case
    for each); and the loops of the model never run out of fuel. *)
Theorem dead_error_paths (line : string) (env : Env) (e : EvalError) :
  fst (evaluate line env) = Err e -> reported e = true.
Proof.
  unfold evaluate.
  destruct (preprocessFuncCalls (chars line)) as [pre|e0] eqn:Hpre.
  - destruct (toRPN pre) as [rpn|e1] eqn:Hrpn.
    + pose proof (toRPN_loop_nodes _ _ _ _ Hrpn) as Hnodes.
      destruct (evalRPN rpn env) as [[v|e2] env'] eqn:Hev; cbn [fst]; [discriminate|].
      intros H; inversion H; subst e2.
      eapply evalRPN_reported; [|exact Hev].
      apply Hnodes. split; constructor.
    + cbn [fst]. intros H; inversion H; subst e1.
      pose proof (toRPN_fuel pre) as Hfuel.
      destruct (toRPN_loop_error _ _ _ _ Hrpn) as [He | [[c He] | [He | He]]];
        subst e; try reflexivity.
      now destruct Hfuel.
  - cbn [fst]. intros H; inversion H; subst e0.
    pose proof (preprocessFuncCalls_fuel (chars line)) as Hfuel.
    destruct (preprocess_loop_error _ _ _ _ Hpre) as [He | He]; subst e; [reflexivity|].
    now destruct Hfuel.
Qed.

(** ** The value stack *)

Lemma eval_node_frame (n : Node) (st st' below : list float) (env env' : Env) :
  eval_node n st env = (Ok st', env') ->
  eval_node n (st ++ below) env = (Ok (st' ++ below), env').
Proof.
  unfold eval_node.
  destruct (Node.k n); unfold_eval; simpl; try (intros H; now inversion H).
  - destruct (find UF (Node.text n));
      [destruct st; simpl; intros H; now inversion H|].
    destruct (find BF (Node.text n));
      [destruct st as [|? [|? ?]]; simpl; intros H; now inversion H|].
    destruct (vars env !! Node.text n); intros H; now inversion H.
  - unfold applyOp.
    destruct (String.eqb (Node.text n) "u-").
    + destruct st as [|b st0]; simpl; intros H; now inversion H.
    + destruct st as [|b [|a st0]]; simpl; try discriminate.
      repeat match goal with
             | |- context [if ?b then _ else _] => destruct b
             end; simpl; intros H; now inversion H.
Qed.

(** X8. The evaluation loop of [evalRPN] never looks below the values it
    works on: a program that runs to the end on a stack runs the same way on
    that stack with any values underneath, and leaves them under its
    result. *)
Theorem evaluation_frame (ns : list Node) (st st' below : list float) (env env' : Env) :
  eval_nodes ns st env = (Ok st', env') ->
  eval_nodes ns (st ++ below) env = (Ok (st' ++ below), env').
Proof.
  revert st. induction ns as [|n ns IH]; intros st; cbn [eval_nodes].
  - unfold_eval. intros H. now inversion H.
  - unfold mbind, eval_mbind, eval_bind.
    destruct (eval_node n st env) as [[st0|e] env0] eqn:E; [|discriminate].
    rewrite (eval_node_frame _ _ _ below _ _ E).
    pose proof (eval_node_env n st env) as Hn. rewrite E in Hn. simpl in Hn. subst env0.
    apply IH.
Qed.

(** X9. The assignment branch of [evalRPN] works on the program it was
    written for.  For a name [x] that is in neither function table and a
    program [rhs] without Assignment marker that evaluates to [v], the
    program [x], marker, [rhs] returns [v] and stores it under [x] with the
    precision unchanged; in the environment it leaves, the program [x] alone
    reads [v] back. *)
Theorem stored_value_is_read_back (x : string) (rhs : list Node) (v : float) (env : Env) :
  find UF x = None -> find BF x = None ->
  existsb (fun n => is_kind n KAssign) rhs = false ->
  fst (evalRPN rhs env) = Ok v ->
  let env' := {| vars := <[x := v]> (vars env); precision := precision env |} in
  evalRPN (var_node x :: assign_node :: rhs) env = (Ok v, env')
  /\ evalRPN [var_node x] env' = (Ok v, env').
Proof.
  intros Hu Hb Hrhs Hv env'. split.
  - revert Hv. unfold evalRPN. rewrite Hrhs.
    change (existsb (fun n => is_kind n KAssign) (var_node x :: assign_node :: rhs))
      with (false || (true || existsb (fun n => is_kind n KAssign) rhs)).
    cbn [orb].
    change (kind_at (var_node x :: assign_node :: rhs) 0 KVar) with true.
    change (kind_at (var_node x :: assign_node :: rhs) 1 KAssign) with true.
    change (drop 2 (var_node x :: assign_node :: rhs)) with rhs.
    change ((var_node x :: assign_node :: rhs) !! 0%nat) with (Some (var_node x)).
    cbn [negb orb var_node Node.text].
    destruct rhs as [|n rhs]; [discriminate|].
    change (length (var_node x :: assign_node :: n :: rhs) <? 3)%nat with false.
    cbn [orb]. unfold mbind, eval_mbind, eval_bind.
    pose proof (eval_nodes_env (n :: rhs) [] env) as Hn.
    destruct (eval_nodes (n :: rhs) [] env) as [[st|e] env0]; cbn in Hn; subst env0;
      [|discriminate].
    destruct st as [|w [|? ?]]; unfold_eval; cbn; try discriminate.
    intros H. inversion H. reflexivity.
  - unfold evalRPN.
    change (existsb (fun n => is_kind n KAssign) [var_node x]) with false.
    cbv iota. cbn [eval_nodes eval_node var_node Node.k Node.text]. rewrite Hu, Hb.
    unfold_eval. subst env'. cbn [vars]. rewrite lookup_insert_eq. reflexivity.
Qed.

End Further.

(** ** What the parser checks *)

Lemma pop_until_parens (stop : Node -> bool) (out stk : list Node) :
  (forall n, is_lparen n = true -> stop n = true) ->
  open_parens (snd (pop_until stop out stk)) = open_parens stk
  /\ (Forall (fun n => pushed n = true) stk ->
      Forall (fun n => pushed n = true) (snd (pop_until stop out stk))).
Proof.
  intros Hstop. revert out. induction stk as [|top below IH]; intros out.
  - split; [reflexivity|auto].
  - cbn [pop_until]. destruct (stop top) eqn:Htop; [split; auto|].
    destruct (IH (out ++ [top])) as [IH1 IH2]. split.
    + rewrite IH1. unfold open_parens. cbn [List.filter].
      destruct (is_lparen top) eqn:Hl; [|reflexivity].
      rewrite (Hstop _ Hl) in Htop. discriminate.
    + intros H. apply IH2. now inversion H.
Qed.

Lemma pop_until_head (stop : Node -> bool) (out stk : list Node) :
  match snd (pop_until stop out stk) with
  | top :: _ => stop top = true
  | [] => True
  end.
Proof.
  revert out. induction stk as [|top below IH]; intros out; [exact I|].
  cbn [pop_until]. destruct (stop top) eqn:Htop; [exact Htop|apply IH].
Qed.

Lemma pushed_not_argsep (n : Node) : pushed n = true -> is_kind n KArgSep = false.
Proof. destruct n as [[] ? ? ?]; vm_compute; congruence. Qed.

Lemma shunt_step_nesting (tok : Token) (rest : list Token) (st : Shunt) :
  Token.t tok <> End ->
  Forall (fun n => pushed n = true) (ops st) ->
  match shunt_step tok st with
  | Ok st' =>
      Forall (fun n => pushed n = true) (ops st')
      /\ nesting (tok :: rest) (open_parens (ops st)) = nesting rest (open_parens (ops st'))
  | Err e => nesting (tok :: rest) (open_parens (ops st)) = Err e
  end.
Proof.
  intros Hty Hops. unfold shunt_step. cbn [nesting].
  destruct (Token.t tok) eqn:Ht; try (now destruct Hty); cbn [ops];
    try (split; [assumption|reflexivity]).
  all: try match goal with
           | |- context [pop_until ?stop ?out ?stk] =>
               let H1 := fresh "Hcount" in
               let H2 := fresh "Hpushed" in
               let H3 := fresh "Hhead" in
               assert (Hs : forall n, is_lparen n = true -> stop n = true)
                 by (intros n Hn; cbn; rewrite ?Hn, ?orb_true_r; try reflexivity;
                     unfold yields_to; unfold is_lparen in Hn;
                     apply andb_prop in Hn as [Hk Hx]; rewrite Hk;
                     apply String.eqb_eq in Hx; rewrite Hx; reflexivity);
               destruct (pop_until_parens stop out stk Hs) as [H1 H2];
               pose proof (pop_until_head stop out stk) as H3;
               specialize (H2 Hops);
               destruct (pop_until stop out stk) as [out' ops']; cbn [fst snd] in *
           end.
  all: try (split; [constructor; [reflexivity|assumption]|];
            first [ reflexivity
                  | rewrite <- Hcount; unfold open_parens, operator_symbol;
                    cbn [ops List.filter]; now destruct (unary (prev st)) ]).
  - destruct ops' as [|top below]; [now rewrite <- Hcount|].
    rewrite <- Hcount. unfold open_parens at 1 2. cbn [List.filter]. rewrite Hhead.
    cbn [length]. inversion Hpushed as [|? ? _ Hbelow]; subst.
    destruct below as [|f below']; [split; [constructor|reflexivity]|].
    inversion Hbelow as [|? ? Hf _]; subst.
    replace (is_kind f KFunc) with false
      by (destruct f as [[] ? ? ?]; vm_compute in Hf |- *; congruence).
    split; [assumption|reflexivity].
  - destruct ops' as [|top below]; [now rewrite <- Hcount|].
    cbn [ops]. split; [assumption|]. rewrite <- Hcount.
    inversion Hpushed as [|? ? Htop _]; subst.
    rewrite (pushed_not_argsep _ Htop) in Hhead. cbn [orb] in Hhead.
    unfold open_parens. cbn [List.filter]. now rewrite Hhead.
Qed.

Lemma shunt_all_nesting (toks : list Token) (st : Shunt) :
  Forall (fun tok => Token.t tok <> End) toks ->
  Forall (fun n => pushed n = true) (ops st) ->
  match shunt_all toks st with
  | Ok st' => nesting toks (open_parens (ops st)) = nesting [] (open_parens (ops st'))
  | Err e => nesting toks (open_parens (ops st)) = Err e
  end.
Proof.
  intros Htoks. revert st. induction Htoks as [|tok rest Htok Hrest IH]; intros st Hops.
  - reflexivity.
  - cbn [shunt_all]. unfold mbind, result_mbind, result_bind.
    pose proof (shunt_step_nesting tok rest st Htok Hops) as Hstep.
    destruct (shunt_step tok st) as [st'|e]; [|exact Hstep].
    destruct Hstep as [Hops' ->]. now apply IH.
Qed.

Lemma drain_nesting (out stk : list Node) :
  match drain out stk with
  | Ok _ => nesting [] (open_parens stk) = Ok tt
  | Err e => nesting [] (open_parens stk) = Err e
  end.
Proof.
  revert out. induction stk as [|top below IH]; intros out; [reflexivity|].
  cbn [drain]. unfold open_parens. cbn [List.filter].
  destruct (is_lparen top); [reflexivity|apply IH].
Qed.

Lemma tokenize_no_end (fuel : nat) (s : list ascii) (toks : list Token) :
  tokenize_loop fuel s = Ok toks -> Forall (fun tok => Token.t tok <> End) toks.
Proof.
  revert s toks. induction fuel as [|fuel IH]; intros s toks; [discriminate|].
  cbn [tokenize_loop]. unfold mbind, result_mbind, result_bind.
  destruct (Lexer.next s) as [[tok rest]|e]; [|discriminate].
  destruct (Token.t tok) eqn:Ht;
    try (intros H; inversion H; constructor);
    (destruct (tokenize_loop fuel rest) as [toks'|e] eqn:Hrest; [|discriminate];
     intros H; inversion H; subst; constructor; [congruence|now apply (IH rest)]).
Qed.

(** X10. The parser checks the nesting of parentheses and commas, and
    nothing else.  On a line that the lexer reads to the end, [toRPN] fails
    exactly when [nesting] fails on the tokens, and with the same error: a
    right parenthesis with no open one or a parenthesis left open is
    "unbalanced", a comma outside every parenthesis is "misplaced".  Every
    other sequence of tokens, such as two operators in a row, is accepted and
    left to [evalRPN]. *)
Theorem parser_checks_nesting_only (s : list ascii) (toks : list Token) (e : EvalError) :
  tokenize s = Ok toks ->
  toRPN s = Err e <-> nesting toks 0 = Err e.
Proof.
  intros Htok. unfold toRPN, tokenize in *.
  rewrite (toRPN_loop_tokens _ _ _ _ Htok). unfold mbind, result_mbind, result_bind.
  pose proof (shunt_all_nesting toks {| output := []; ops := []; prev := End |}
                (tokenize_no_end _ _ _ Htok) ltac:(constructor)) as Hall.
  change (open_parens (ops {| output := []; ops := []; prev := End |})) with 0%nat in Hall.
  destruct (shunt_all toks _) as [st'|e0].
  - rewrite Hall. pose proof (drain_nesting (output st') (ops st')) as Hd.
    destruct (drain (output st') (ops st')) as [rpn|e1]; rewrite Hd;
      split; intros H; inversion H; reflexivity.
  - rewrite Hall. split; intros H; inversion H; reflexivity.
Qed.

(** ** The rewriting of calls *)

(** X11. A line without the syntax of a call is not touched by
    [preprocessFuncCalls]: when the lexer reads the line to the end and no
    left parenthesis follows a name or a number, and no name follows a
    number (the lexer splits 2e at the marker, the rewriting does not), the
    text comes back as it was. *)
Theorem plain_line_is_unchanged (s : list ascii) (toks : list Token) :
  tokenize s = Ok toks -> plain toks = true -> preprocessFuncCalls s = Ok s.
Proof.
  intros Htok Hplain. unfold preprocessFuncCalls.
  rewrite <- (Nat.add_0_r (length s)).
  apply (preprocess_plain _ _ _ Htok Hplain).
Qed.

Lemma preprocess_loop_acc (n : nat) :
  forall s, (length s <= n)%nat ->
  forall fuel out, (length s <= fuel)%nat ->
    preprocess_loop fuel s out
    = match preprocess_loop n s [] with
      | Ok r => Ok (out ++ r)
      | Err e => Err e
      end.
Proof.
  induction n as [|n IH]; intros s Hn fuel out Hfuel.
  - destruct s; [|cbn in Hn; lia]. rewrite !preprocess_end. now rewrite app_nil_r.
  - destruct s as [|c r]; [rewrite !preprocess_end; now rewrite app_nil_r|].
    destruct fuel as [|fuel]; [cbn in Hfuel; lia|].
    cbn [length] in Hn, Hfuel. cbn [preprocess_loop].
    assert (Hcopy : preprocess_loop fuel r (out ++ [c])
                    = match preprocess_loop n r ([] ++ [c]) with
                      | Ok r0 => Ok (out ++ r0)
                      | Err e => Err e
                      end).
    { rewrite (IH r ltac:(lia) fuel (out ++ [c]) ltac:(lia)).
      rewrite (IH r ltac:(lia) n ([] ++ [c]) ltac:(lia)).
      destruct (preprocess_loop n r []); [|reflexivity]. list_norm. }
    destruct (isalpha c || is_char c "_"); [|exact Hcopy].
    pose proof (span_length Lexer.isIdentChar r) as Hname.
    destruct (span Lexer.isIdentChar r) as [name after]. cbn [snd] in Hname.
    pose proof (span_length isspace after) as Hsp.
    destruct (snd (span isspace after)) as [|p rest'] eqn:Hk; [exact Hcopy|].
    destruct (is_char p "("); [|exact Hcopy].
    destruct (call_args (p :: rest') 0 [] []) as [[args rest]|] eqn:Hargs; [|reflexivity].
    apply call_args_shrinks in Hargs.
    rewrite (IH rest ltac:(lia) fuel _ ltac:(lia)).
    rewrite (IH rest ltac:(lia) n ([] ++ _) ltac:(lia)).
    destruct (preprocess_loop n rest []); [|reflexivity]. list_norm.
Qed.

Lemma call_args_chars (a r : list ascii) (args : list (list ascii)) (cur : list ascii) :
  flat a -> call_args (a ++ r) 1 args cur = call_args r 1 args (cur ++ a).
Proof.
  intros Ha. revert cur. induction Ha as [|c a Hc _ IH]; intros cur.
  - now rewrite app_nil_r.
  - cbn [app call_args].
    apply orb_false_iff in Hc as [Hc Hcomma]. apply orb_false_iff in Hc as [Hopen Hclose].
    rewrite Hopen, Hclose, Hcomma. cbn [andb]. rewrite IH. list_norm.
Qed.

Lemma call_args_flat (args : list (list ascii)) :
  forall a done cur tail,
    Forall flat (a :: args) ->
    call_args (commas (a :: args) ++ ")"%char :: tail) 1 done cur
    = Some (done ++ (cur ++ a) :: args, tail).
Proof.
  induction args as [|b args IH]; intros a done cur tail Hflat;
    inversion Hflat as [|? ? Ha Hargs]; subst.
  - cbn [commas]. rewrite call_args_chars by assumption. reflexivity.
  - change (commas (a :: b :: args)) with (a ++ ","%char :: commas (b :: args)).
    rewrite <- app_assoc, call_args_chars by assumption.
    cbn [app call_args]. change (is_char "," "(") with false.
    change (is_char "," ")") with false. change (is_char "," ",") with true.
    cbn [andb Z.eqb Pos.eqb]. rewrite IH by assumption. list_norm.
Qed.

Lemma space_not_ident (c : ascii) : isspace c = true -> Lexer.isIdentChar c = false.
Proof. by_char c. Qed.

(** X12. The rewriting of one call.  A name, spaces, and a parenthesis
    that holds arguments without parentheses or commas of their own become
    an opening parenthesis, the arguments with a space for each comma, a
    closing parenthesis, a space and the name; the text after the call is
    rewritten in the same way and follows without a space.  The arguments
    are copied, not rewritten. *)
Theorem call_moves_behind_its_arguments (c : ascii) (nm ws a : list ascii)
    (args : list (list ascii)) (tail : list ascii) :
  starts_name c = true ->
  Forall (fun x => Lexer.isIdentChar x = true) nm ->
  Forall (fun x => isspace x = true) ws ->
  Forall flat (a :: args) ->
  preprocessFuncCalls (c :: nm ++ ws ++ "("%char :: commas (a :: args) ++ ")"%char :: tail)
  = match preprocessFuncCalls tail with
    | Ok t => Ok ("("%char :: join_args (a :: args) ++ chars ") " ++ c :: nm ++ t)
    | Err e => Err e
    end.
Proof.
  intros Hc Hnm Hws Hflat. unfold preprocessFuncCalls.
  cbn [length preprocess_loop]. unfold starts_name in Hc. rewrite Hc.
  rewrite (span_prefix Lexer.isIdentChar nm) by
    first [ assumption
          | destruct Hws as [|w ws Hw _]; [reflexivity|exact (space_not_ident w Hw)] ].
  rewrite (span_prefix isspace ws) by first [assumption | reflexivity].
  cbn [snd]. change (is_char "(" "(") with true. cbv iota.
  cbn [call_args]. change (is_char "(" "(") with true. cbv iota.
  change (0 + 1) with 1. change (1 <? 1) with false. cbv iota.
  rewrite call_args_flat by assumption. cbn [app].
  rewrite (preprocess_loop_acc (length tail) tail (le_n _)).
  - destruct (preprocess_loop (length tail) tail []); [|reflexivity].
    f_equal. list_norm.
  - rewrite !length_app. cbn [length]. rewrite !length_app. cbn [length]. lia.
Qed.

Lemma call_args_open (s : list ascii) :
  forall depth args cur,
    1 <= depth ->
    Forall (fun x => is_char x ")" = false) s ->
    call_args s depth args cur = None.
Proof.
  induction s as [|x s IH]; intros depth args cur Hd Hs; [reflexivity|].
  inversion Hs as [|? ? Hx Hrest]; subst. cbn [call_args]. rewrite Hx.
  destruct (is_char x "("); [apply IH; [lia|assumption]|].
  destruct (is_char x "," && (depth =? 1)); now apply IH.
Qed.

(** X13. A call that is never closed stops the line before it is parsed:
    after a text without letters or underscores, a name followed by a left
    parenthesis with no right parenthesis anywhere behind it makes
    [preprocessFuncCalls] fail with the error of unbalanced parentheses in a
    call, whatever else the line holds. *)
Theorem unclosed_call_is_rejected (pre : list ascii) (c : ascii) (nm ws body : list ascii) :
  Forall (fun x => starts_name x = false) pre ->
  starts_name c = true ->
  Forall (fun x => Lexer.isIdentChar x = true) nm ->
  Forall (fun x => isspace x = true) ws ->
  Forall (fun x => is_char x ")" = false) body ->
  preprocessFuncCalls (pre ++ c :: nm ++ ws ++ "("%char :: body) = Err UnbalancedCallParens.
Proof.
  intros Hpre Hc Hnm Hws Hbody. unfold preprocessFuncCalls.
  rewrite length_app, preprocess_copy_all by assumption.
  cbn [length preprocess_loop]. unfold starts_name in Hc. rewrite Hc.
  rewrite (span_prefix Lexer.isIdentChar nm) by
    first [ assumption
          | destruct Hws as [|w ws Hw _]; [reflexivity|exact (space_not_ident w Hw)] ].
  rewrite (span_prefix isspace ws) by first [assumption | reflexivity].
  cbn [snd]. change (is_char "(" "(") with true. cbv iota.
  cbn [call_args]. change (is_char "(" "(") with true. cbv iota.
  now rewrite call_args_open.
Qed.

(** ** Calls *)

Lemma toRPN_call (name : string) (e : expr) (s : list ascii) :
  reads_as code_precedence e ->
  tokenize s = Ok (call_tokens name e) ->
  toRPN s = Ok (postfix e ++ [var_node name]).
Proof.
  intros Hread Htok. unfold toRPN, tokenize in *.
  rewrite (toRPN_loop_tokens _ _ _ _ Htok). unfold call_tokens.
  cbn [shunt_all]. unfold mbind, result_mbind, result_bind.
  change (shunt_step (punct LParen "(") {| output := []; ops := []; prev := End |})
    with (Ok {| output := []; ops := [op_node "("]; prev := LParen |}).
  destruct (shunt_expr e Hread [] [op_node "("] LParen)
    as (o & pend & pv' & Hrun & Hpost & Hpend & _).
  - reflexivity.
  - change (top_prec [op_node "("]) with 0.
    pose proof (level_range code_precedence e eq_refl). unfold entry.
    destruct (Z.leb_spec (level code_precedence e) 2); lia.
  - repeat constructor.
  - rewrite (shunt_all_ok _ _ _ _ Hrun). cbn [shunt_all].
    unfold mbind, result_mbind, result_bind.
    rewrite (step_rparen _ _ _ _ _ Hpend) by constructor.
    cbn [app]. rewrite Hpost. reflexivity.
Qed.

Lemma first_token (e : expr) :
  starts_minus e = false ->
  exists tok rest,
    tokens e = tok :: rest /\ (Token.t tok = Number \/ Token.t tok = LParen).
Proof.
  induction e as [v|e IH|e IH|op a IHa b IHb]; cbn [starts_minus tokens]; intros H.
  - eexists _, _. split; [reflexivity|now left].
  - eexists _, _. split; [reflexivity|now right].
  - discriminate.
  - destruct (IHa H) as (tok & rest & -> & Htok).
    eexists _, _. split; [reflexivity|exact Htok].
Qed.

(** The previous token matters to a minus only. *)
Lemma shunt_prev (e : expr) (out stk : list Node) (pv pv' : TokType) :
  starts_minus e = false ->
  shunt_all (tokens e) {| output := out; ops := stk; prev := pv |}
  = shunt_all (tokens e) {| output := out; ops := stk; prev := pv' |}.
Proof.
  intros H. destruct (first_token e H) as (tok & rest & -> & [Ht|Ht]);
    cbn [shunt_all]; unfold shunt_step; rewrite Ht; reflexivity.
Qed.

Lemma no_operator_from_5 (pending : list Node) :
  Forall (operator_from 5) pending -> pending = [].
Proof.
  destruct 1 as [|n rest (sym & ti & _ & Hfind & Hp) _]; [reflexivity|].
  exfalso. revert Hfind. unfold find, OP.
  repeat match goal with
         | |- context [if ?b then _ else _] => destruct b
         end; intros H; inversion H; subst ti; cbn in Hp; lia.
Qed.

Lemma toRPN_call2 (name : string) (a b : expr) (s : list ascii) :
  reads_as code_precedence a ->
  reads_as code_precedence b ->
  level code_precedence a = 5 ->
  starts_minus b = false ->
  tokenize s = Ok (call2_tokens name a b) ->
  toRPN s = Ok (postfix a ++ postfix b ++ [var_node name]).
Proof.
  intros Hra Hrb Hla Hb Htok. unfold toRPN, tokenize in *.
  rewrite (toRPN_loop_tokens _ _ _ _ Htok). unfold call2_tokens.
  cbn [shunt_all]. unfold mbind, result_mbind, result_bind.
  change (shunt_step (punct LParen "(") {| output := []; ops := []; prev := End |})
    with (Ok {| output := []; ops := [op_node "("]; prev := LParen |}).
  assert (Hentry : forall e, top_prec [op_node "("] <= entry (level code_precedence e)).
  { intros e. change (top_prec [op_node "("]) with 0.
    pose proof (level_range code_precedence e eq_refl). unfold entry.
    destruct (Z.leb_spec (level code_precedence e) 2); lia. }
  destruct (shunt_expr a Hra [] [op_node "("] LParen eq_refl (Hentry a))
    as (oa & penda & pva & Hrun_a & Hpost_a & Hpend_a & _); [repeat constructor|].
  rewrite Hla in Hpend_a. apply no_operator_from_5 in Hpend_a. subst penda.
  rewrite app_nil_r in Hpost_a. subst oa. cbn [app] in Hrun_a.
  destruct (shunt_expr b Hrb (postfix a) [op_node "("] LParen eq_refl (Hentry b))
    as (ob & pendb & pvb & Hrun_b & Hpost_b & Hpend_b & _); [repeat constructor|].
  rewrite (shunt_all_ok _ _ _ _ Hrun_a), shunt_all_app, (shunt_prev b _ _ pva LParen Hb).
  rewrite Hrun_b. cbn [shunt_all]. unfold mbind, result_mbind, result_bind.
  rewrite (step_rparen _ _ _ _ _ Hpend_b) by constructor.
  cbn [app drain shunt_step output ops punct Token.t Token.text].
  now rewrite <- !app_assoc, (app_assoc ob), Hpost_b.
Qed.

Section Calls.
Context {libm : cmath.Lib}.

Lemma evalRPN_call (name : string) (e : expr) (env : Env) :
  evalRPN (postfix e ++ [var_node name]) env
  = match value e with
    | Ok v =>
        match eval_node (var_node name) [v] env with
        | (Ok [r], _) => (Ok r, env)
        | (Ok _, _) => (Err (InvalidExpression false), env)
        | (Err er, _) => (Err er, env)
        end
    | Err er => (Err er, env)
    end.
Proof.
  unfold evalRPN. rewrite existsb_app, postfix_no_assign.
  change (existsb (fun n => is_kind n KAssign) [var_node name]) with false. cbn [orb].
  unfold mbind, eval_mbind, eval_bind. rewrite eval_nodes_app, eval_postfix.
  destruct (value e) as [v|er]; [|reflexivity].
  cbn [eval_nodes]. unfold mbind, eval_mbind, eval_bind.
  pose proof (eval_node_env (var_node name) [v] env) as Hn.
  destruct (eval_node (var_node name) [v] env) as [[st|er] env']; cbn in Hn; subst env';
    [|reflexivity].
  destruct st as [|r [|? ?]]; reflexivity.
Qed.

(** X14. A call of a one-argument function.  When the rewritten line is a
    parenthesis around the text of an arithmetic expression, followed by a
    name of the table [UF], the line evaluates to that function applied to
    the value of the expression, the environment is unchanged, and an error
    of the expression is the error of the line. *)
Theorem unary_call_value (name : string) (f : float -> float) (e : expr)
    (line : string) (pre : list ascii) (env : Env) :
  find UF name = Some f ->
  reads_as code_precedence e ->
  preprocessFuncCalls (chars line) = Ok pre ->
  tokenize pre = Ok (call_tokens name e) ->
  evaluate line env = (v ← value e; Ok (f v), env).
Proof.
  intros Hf Hread Hpre Htok. unfold evaluate.
  rewrite Hpre, (toRPN_call name e _ Hread Htok), evalRPN_call.
  unfold mbind, result_mbind, result_bind.
  destruct (value e) as [v|er]; [|reflexivity].
  unfold eval_node. cbn [var_node Node.k Node.text]. now rewrite Hf.
Qed.

(** X15. A two-argument function needs two expressions side by side.
    When the text between the parentheses of the rewritten call reads as one
    arithmetic expression, as the arguments 2 and -3 of pow(2,-3) do once the
    comma is a space, a name of the table [BF] that is not in [UF] finds one
    value on the stack and the line fails with a missing argument. *)
Theorem binary_call_on_one_expression (name : string) (g : float -> float -> float)
    (e : expr) (v : float) (line : string) (pre : list ascii) (env : Env) :
  find UF name = None ->
  find BF name = Some g ->
  reads_as code_precedence e ->
  value e = Ok v ->
  preprocessFuncCalls (chars line) = Ok pre ->
  tokenize pre = Ok (call_tokens name e) ->
  evaluate line env = (Err (MissingArgument name), env).
Proof.
  intros Hf Hg Hread Hv Hpre Htok. unfold evaluate.
  rewrite Hpre, (toRPN_call name e _ Hread Htok), evalRPN_call, Hv.
  unfold eval_node. cbn [var_node Node.k Node.text]. now rewrite Hf, Hg.
Qed.

(** X16. A call of the two-argument function.  When the first argument
    is a number or a parenthesis and the second one does not start with a
    minus sign, the rewritten call evaluates to the function of [BF] applied
    to the values of the two expressions, the first one on the left; an error
    of the first argument comes before an error of the second. *)
Theorem binary_call_value (name : string) (g : float -> float -> float) (a b : expr)
    (line : string) (pre : list ascii) (env : Env) :
  find UF name = None ->
  find BF name = Some g ->
  reads_as code_precedence a ->
  reads_as code_precedence b ->
  level code_precedence a = 5 ->
  starts_minus b = false ->
  preprocessFuncCalls (chars line) = Ok pre ->
  tokenize pre = Ok (call2_tokens name a b) ->
  evaluate line env = (va ← value a; vb ← value b; Ok (g va vb), env).
Proof.
  intros Hf Hg Hra Hrb Hla Hb Hpre Htok. unfold evaluate.
  rewrite Hpre, (toRPN_call2 name a b _ Hra Hrb Hla Hb Htok).
  unfold evalRPN. rewrite !existsb_app, !postfix_no_assign.
  change (existsb (fun n => is_kind n KAssign) [var_node name]) with false. cbn [orb].
  unfold mbind, eval_mbind, eval_bind, result_mbind, result_bind.
  rewrite eval_nodes_app, eval_postfix.
  destruct (value a) as [va|er]; [|reflexivity].
  rewrite eval_nodes_app, eval_postfix.
  destruct (value b) as [vb|er]; [|reflexivity].
  cbn [eval_nodes]. unfold mbind, eval_mbind, eval_bind.
  unfold eval_node. cbn [var_node Node.k Node.text]. now rewrite Hf, Hg.
Qed.

End Calls.

(** ** The read loop *)

Section Main.
Context {libm : cmath.Lib}.

Lemma evaluate_env (line : string) (env : Env) :
  snd (evaluate line env) = env
  \/ exists name v,
       snd (evaluate line env)
       = {| vars := <[name := v]> (vars env); precision := precision env |}.
Proof.
  unfold evaluate.
  destruct (preprocessFuncCalls (chars line)) as [pre|e]; [|now left].
  destruct (toRPN pre) as [rpn|e]; [|now left].
  destruct (evalRPN rpn env) as [[v|e] env'] eqn:Hev; cbn [snd].
  - destruct (evalRPN_ok_env _ _ _ _ Hev) as [->|[name ->]]; [now left|right; eauto].
  - left. exact (evalRPN_error_env _ _ _ _ Hev).
Qed.

Lemma main_step_precision (line : list ascii) (env env' : Env) :
  main_step line env = Some env' ->
  0 <= precision env <= 30 -> 0 <= precision env' <= 30.
Proof.
  unfold main_step. intros H Hp.
  destruct (trim line) as [|c r]; [inversion H; now subst|].
  repeat match type of H with
         | (if ?b then _ else _) = _ => destruct b eqn:?
         | match ?o with Some _ => _ | None => _ end = _ => destruct o
         end; inversion H; subst; cbn [precision]; try assumption; try lia.
  destruct (evaluate_env (String c (string_of_list_ascii r)) env) as [->|(name & v & ->)];
    assumption.
Qed.

Lemma main_step_bound (name : string) (line : list ascii) (env env' : Env) :
  name = "pi"%string \/ name = "e"%string ->
  main_step line env = Some env' ->
  is_Some (vars env !! name) -> is_Some (vars env' !! name).
Proof.
  unfold main_step. intros Hname H Hb.
  destruct (trim line) as [|c r]; [inversion H; now subst|].
  repeat match type of H with
         | (if ?b then _ else _) = _ => destruct b eqn:?
         | match ?o with Some _ => _ | None => _ end = _ => destruct o
         end; inversion H; subst; cbn [vars]; try assumption.
  - destruct Hname as [->| ->]; [rewrite lookup_insert_ne by discriminate|];
      rewrite lookup_insert_eq; eauto.
  - destruct (evaluate_env (String c (string_of_list_ascii r)) env) as [->|(x & v & ->)];
      [assumption|]. cbn [vars].
    destruct (decide (x = name)) as [->|Hx];
      [rewrite lookup_insert_eq; eauto|now rewrite lookup_insert_ne].
Qed.

(** X17. The precision of the session is always a number from 0 to 30:
    it starts at 10, [:precision] changes it only to a number of that range,
    and no other line changes it, whatever the lines of the input are. *)
Theorem precision_stays_in_range (lines : list (list ascii)) :
  0 <= precision (main lines) <= 30.
Proof.
  unfold main. assert (H : 0 <= precision Env_new <= 30) by (cbn; lia).
  revert H. generalize Env_new. induction lines as [|line rest IH]; intros env H.
  - exact H.
  - cbn [main_loop]. destruct (main_step line env) as [env'|] eqn:Hstep; [|exact H].
    apply IH. exact (main_step_precision _ _ _ Hstep H).
Qed.

(** X18. The constants are never lost: whatever the lines of the input
    are, [pi] and [e] are bound at the end of the session.  A line can give
    them another value, none removes them, and [:clear] binds them anew. *)
Theorem constants_stay_bound (lines : list (list ascii)) :
  is_Some (vars (main lines) !! "pi") /\ is_Some (vars (main lines) !! "e").
Proof.
  unfold main.
  assert (H : forall name, name = "pi"%string \/ name = "e"%string ->
                           is_Some (vars Env_new !! name)).
  { intros name [->| ->]; cbn [Env_new vars];
      [rewrite lookup_insert_ne by discriminate|]; rewrite lookup_insert_eq; eauto. }
  revert H. generalize Env_new. induction lines as [|line rest IH]; intros env H.
  - split; apply H; auto.
  - cbn [main_loop]. destruct (main_step line env) as [env'|] eqn:Hstep.
    + apply IH. intros name Hname. exact (main_step_bound _ _ _ _ Hname Hstep (H _ Hname)).
    + split; apply H; auto.
Qed.

Lemma digit_val_range (c : ascii) : isdigit c = true -> 0 <= digit_val c <= 9.
Proof. by_char c; cbv; split; discriminate. Qed.

Lemma digits_val_nonneg (ds : list ascii) :
  Forall (fun c => isdigit c = true) ds -> 0 <= digits_val ds.
Proof.
  unfold digits_val. intros Hds.
  assert (H : forall acc, 0 <= acc ->
                0 <= fold_left (fun acc c => 10 * acc + digit_val c) ds acc);
    [|apply H; lia].
  induction Hds as [|c ds Hc _ IH]; intros acc Hacc; [exact Hacc|].
  cbn [fold_left]. apply IH. pose proof (digit_val_range c Hc). lia.
Qed.

(** X19. The command [:precision].  After the word, spaces are optional;
    the digits that follow are read as a decimal number and whatever comes
    after them is ignored.  The precision becomes that number when it is at
    most 30, and the line changes nothing when it is larger, however large;
    the variables are never touched. *)
Theorem precision_command (ws ds tail : list ascii) (env : Env) :
  Forall (fun c => isspace c = true) ws ->
  ds <> [] ->
  Forall (fun c => isdigit c = true) ds ->
  head_not isdigit tail ->
  head_not isspace (rev (ds ++ tail)) ->
  main_step (chars ":precision" ++ ws ++ ds ++ tail) env
  = Some (if digits_val ds <=? 30
          then {| vars := vars env; precision := digits_val ds |}
          else env).
Proof.
  intros Hws Hne Hds Htail Hlast. unfold main_step.
  rewrite trim_fixed.
  2:{ split; [reflexivity|].
      rewrite (app_assoc (chars ":precision") ws (ds ++ tail)), rev_app_distr.
      destruct (rev (ds ++ tail)) as [|y r] eqn:Hrev; [|exact Hlast].
      apply (f_equal (@length ascii)) in Hrev. rewrite length_rev, length_app in Hrev.
      destruct ds; [congruence|discriminate]. }
  change (chars ":precision") with (":"%char :: "p"%char :: chars "recision").
  cbn [app]. unfold is_line.
  rewrite !bool_decide_eq_false_2 by (intros H; inversion H).
  change (is_prefix (chars ":precision")
            (":"%char :: "p"%char :: chars "recision" ++ ws ++ ds ++ tail)) with true.
  cbv iota.
  change (drop 10 (":"%char :: "p"%char :: chars "recision" ++ ws ++ ds ++ tail))
    with (ws ++ ds ++ tail).
  unfold extract_int.
  destruct ds as [|d ds]; [congruence|]. inversion Hds as [|? ? Hd Hds']; subst.
  change ((d :: ds) ++ tail) with (d :: ds ++ tail).
  rewrite (span_prefix isspace ws (_ :: _) Hws (digit_not_space d Hd)).
  cbn [snd].
  replace (is_char d "-") with false by (revert Hd; by_char d).
  replace (is_char d "+") with false by (revert Hd; by_char d).
  change (d :: ds ++ tail) with ((d :: ds) ++ tail).
  rewrite (span_prefix isdigit (d :: ds) tail Hds Htail). cbn [fst].
  pose proof (digits_val_nonneg (d :: ds) Hds) as Hpos.
  unfold INT_MIN, INT_MAX.
  destruct (Z.leb_spec (digits_val (d :: ds)) 30) as [Hle|Hgt].
  - replace ((-2147483648 <=? digits_val (d :: ds))
             && (digits_val (d :: ds) <=? 2147483647)) with true by lia.
    now replace ((0 <=? digits_val (d :: ds)) && (digits_val (d :: ds) <=? 30))
      with true by lia.
  - destruct ((-2147483648 <=? digits_val (d :: ds))
              && (digits_val (d :: ds) <=? 2147483647)); [|reflexivity].
    now replace ((0 <=? digits_val (d :: ds)) && (digits_val (d :: ds) <=? 30))
      with false by lia.
Qed.

End Main.

(** ** An assignment that works *)

Lemma toRPN_target (name : string) (e : expr) (s : list ascii) :
  reads_as code_precedence e ->
  starts_minus e = false ->
  tokenize s = Ok (target_tokens name e) ->
  toRPN s = Ok (var_node name :: assign_node :: postfix e).
Proof.
  intros Hread Hminus Htok. unfold toRPN, tokenize in *.
  rewrite (toRPN_loop_tokens _ _ _ _ Htok). unfold target_tokens.
  rewrite (shunt_all_ok _ _ _ {| output := [var_node name; assign_node]; ops := [];
                                 prev := RParen |}) by reflexivity.
  rewrite (shunt_prev e _ _ RParen End Hminus).
  destruct (shunt_expr e Hread [var_node name; assign_node] [] End)
    as (o & pend & pv' & Hrun & Hpost & Hpend & _).
  - reflexivity.
  - change (top_prec []) with 0.
    pose proof (level_range code_precedence e eq_refl). unfold entry.
    destruct (Z.leb_spec (level code_precedence e) 2); lia.
  - constructor.
  - rewrite Hrun. cbn [mbind result_mbind result_bind output ops].
    rewrite app_nil_r, (drain_pending _ _ _ Hpend), <- app_assoc, Hpost. reflexivity.
Qed.

Lemma plain_target (name : string) (e : expr) : plain (target_tokens name e) = true.
Proof.
  unfold target_tokens. cbn [app plain punct Token.t head_is].
  rewrite bool_decide_eq_false_2 by discriminate. cbn [negb andb].
  rewrite <- (app_nil_r (tokens e)). now apply plain_tokens.
Qed.

Section Target.
Context {libm : cmath.Lib}.

Lemma evalRPN_target (name : string) (e : expr) (env : Env) :
  evalRPN (var_node name :: assign_node :: postfix e) env
  = match value e with
    | Ok v => (Ok v, {| vars := <[name := v]> (vars env); precision := precision env |})
    | Err er => (Err er, env)
    end.
Proof.
  unfold evalRPN.
  change (existsb (fun n => is_kind n KAssign) (var_node name :: assign_node :: postfix e))
    with (false || (true || existsb (fun n => is_kind n KAssign) (postfix e))).
  cbn [orb].
  change (kind_at (var_node name :: assign_node :: postfix e) 0 KVar) with true.
  change (kind_at (var_node name :: assign_node :: postfix e) 1 KAssign) with true.
  change (drop 2 (var_node name :: assign_node :: postfix e)) with (postfix e).
  change ((var_node name :: assign_node :: postfix e) !! 0%nat) with (Some (var_node name)).
  cbn [negb orb var_node Node.text].
  assert (Hlen : (length (var_node name :: assign_node :: postfix e) <? 3)%nat = false)
    by (destruct (postfix_head e) as (n & ns & ->); reflexivity).
  rewrite Hlen. cbn [orb]. unfold mbind, eval_mbind, eval_bind. rewrite eval_postfix.
  destruct (value e) as [v|er]; reflexivity.
Qed.

(** X20. An assignment that the parser lets through.  When the target and
    the assignment sign are put in parentheses of their own, as in (x=)5, the
    Assignment marker is written to the postfix program right behind the
    name, where [evalRPN] looks for it: the line returns the value of the
    expression that follows and stores it under the name, whether or not the
    name is one of a function; an error of the expression leaves the
    environment as it was. *)
Theorem parenthesised_target_assigns (name : string) (e : expr) (line : string)
    (env : Env) :
  reads_as code_precedence e ->
  starts_minus e = false ->
  tokenize (chars line) = Ok (target_tokens name e) ->
  evaluate line env
  = match value e with
    | Ok v => (Ok v, {| vars := <[name := v]> (vars env); precision := precision env |})
    | Err er => (Err er, env)
    end.
Proof.
  intros Hread Hminus Htok. unfold evaluate.
  assert (Hpre : preprocessFuncCalls (chars line) = Ok (chars line)).
  { unfold preprocessFuncCalls. rewrite <- (Nat.add_0_r (length (chars line))).
    apply (preprocess_plain _ _ _ Htok). apply plain_target. }
  rewrite Hpre, (toRPN_target name e _ Hread Hminus Htok).
  apply evalRPN_target.
Qed.

End Target.

(** ** Instances of the further properties *)

Lemma trim_unique_witness :
  trim (chars "  1 + 2 ") = chars "1 + 2" /\ trim (chars "1 + 2") = chars "1 + 2".
Proof.
  apply (trim_unique (chars "  ") (chars "1 + 2") (chars " ")).
  - repeat constructor.
  - repeat constructor.
  - split; reflexivity.
Defined.

Lemma next_consumes_witness :
  exists ws text,
    chars " 12+3" = ws ++ text ++ chars "+3"
    /\ Forall (fun c => isspace c = true) ws
    /\ head_not isspace text
    /\ (Token.t (Token.mk Number 12%float "") = End <-> text = [])
    /\ (Token.t (Token.mk Number 12%float "") = End -> chars "+3" = [])
    /\ (Token.t (Token.mk Number 12%float "") <> End
        -> (length (chars "+3") < length (chars " 12+3"))%nat).
Proof.
  apply (next_consumes (chars " 12+3") (Token.mk Number 12%float "") (chars "+3")).
  vm_compute. reflexivity.
Defined.

Lemma ident_token_shape_witness :
  exists c a,
    Token.mk Ident 0%float "x1" = Token.mk Ident 0%float (string_of_list_ascii (c :: a))
    /\ Lexer.isIdentStart c = true
    /\ Forall (fun x => Lexer.isIdentChar x = true) a
    /\ head_not Lexer.isIdentChar (chars " = 2")
    /\ exists ws, chars " x1 = 2" = ws ++ c :: a ++ chars " = 2"
                  /\ Forall (fun x => isspace x = true) ws.
Proof.
  apply (ident_token_shape (chars " x1 = 2") (Token.mk Ident 0%float "x1") (chars " = 2")).
  - vm_compute. reflexivity.
  - reflexivity.
Defined.

Lemma toRPN_writes_postfix_nodes_witness :
  forallb rpn_node [num_node 1%float; num_node 2%float; op_node "+"] = true.
Proof.
  apply (toRPN_writes_postfix_nodes (chars "1+2")). vm_compute. reflexivity.
Defined.

Lemma dead_error_paths_witness : reported DivisionByZero = true.
Proof.
  apply (@dead_error_paths sample_libm "1/0" (@Env_new sample_libm)).
  vm_compute. reflexivity.
Defined.

Lemma evaluation_frame_witness :
  @eval_nodes sample_libm [num_node 2%float; op_node "u-"] ([] ++ [7%float])
    (@Env_new sample_libm)
  = (Ok ([(-2)%float] ++ [7%float]), @Env_new sample_libm).
Proof.
  apply (@evaluation_frame sample_libm). vm_compute. reflexivity.
Defined.

Lemma stored_value_is_read_back_witness :
  @evalRPN sample_libm [var_node "x"; assign_node; num_node 5%float] (@Env_new sample_libm)
  = (Ok 5%float,
     {| vars := <["x"%string := 5%float]> (vars (@Env_new sample_libm));
        precision := precision (@Env_new sample_libm) |})
  /\ @evalRPN sample_libm [var_node "x"]
       {| vars := <["x"%string := 5%float]> (vars (@Env_new sample_libm));
          precision := precision (@Env_new sample_libm) |}
     = (Ok 5%float,
        {| vars := <["x"%string := 5%float]> (vars (@Env_new sample_libm));
           precision := precision (@Env_new sample_libm) |}).
Proof.
  apply (@stored_value_is_read_back sample_libm "x" [num_node 5%float] 5%float
           (@Env_new sample_libm)); vm_compute; reflexivity.
Defined.

Lemma parser_checks_nesting_only_witness :
  toRPN (chars "(1+2") = Err UnbalancedParens
  <-> nesting [punct LParen "("; Token.mk Number 1%float ""; punct Plus "+";
               Token.mk Number 2%float ""] 0
      = Err UnbalancedParens.
Proof.
  apply (parser_checks_nesting_only (chars "(1+2")). vm_compute. reflexivity.
Defined.

Lemma plain_line_is_unchanged_witness :
  preprocessFuncCalls (chars "1 + x * 2") = Ok (chars "1 + x * 2").
Proof.
  eapply plain_line_is_unchanged; [vm_compute; reflexivity|reflexivity].
Defined.

Lemma call_moves_behind_its_arguments_witness :
  preprocessFuncCalls (chars "pow (2,8)+1") = Ok (chars "(2 8) pow+1").
Proof.
  apply (call_moves_behind_its_arguments "p" (chars "ow") (chars " ") (chars "2")
           [chars "8"] (chars "+1")).
  - reflexivity.
  - repeat constructor.
  - repeat constructor.
  - repeat constructor.
Defined.

Lemma unclosed_call_is_rejected_witness :
  preprocessFuncCalls (chars "2*sin(1+2") = Err UnbalancedCallParens.
Proof.
  apply (unclosed_call_is_rejected (chars "2*") "s" (chars "in") [] (chars "1+2"));
    try reflexivity; repeat constructor.
Defined.

Lemma unary_call_value_witness :
  @evaluate sample_libm "sqrt(7+9)" (@Env_new sample_libm)
  = (Ok 4%float, @Env_new sample_libm).
Proof.
  apply (@unary_call_value sample_libm "sqrt" PrimFloat.sqrt
           (EBin Add (ENum 7) (ENum 9)) "sqrt(7+9)" (chars "(7+9) sqrt")).
  - reflexivity.
  - vm_compute. repeat split; discriminate.
  - vm_compute. reflexivity.
  - vm_compute. reflexivity.
Defined.

Lemma binary_call_on_one_expression_witness :
  @evaluate sample_libm "pow(2,-3)" (@Env_new sample_libm)
  = (Err (MissingArgument "pow"), @Env_new sample_libm).
Proof.
  apply (@binary_call_on_one_expression sample_libm "pow" pow_whole
           (EBin Sub (ENum 2) (ENum 3)) (-1)%float "pow(2,-3)" (chars "(2 -3) pow")).
  - reflexivity.
  - reflexivity.
  - vm_compute. repeat split; discriminate.
  - vm_compute. reflexivity.
  - vm_compute. reflexivity.
  - vm_compute. reflexivity.
Defined.

Lemma binary_call_value_witness :
  @evaluate sample_libm "pow(2,3+1)" (@Env_new sample_libm)
  = (Ok 16%float, @Env_new sample_libm).
Proof.
  apply (@binary_call_value sample_libm "pow" pow_whole (ENum 2)
           (EBin Add (ENum 3) (ENum 1)) "pow(2,3+1)" (chars "(2 3+1) pow")).
  - reflexivity.
  - reflexivity.
  - exact I.
  - vm_compute. repeat split; discriminate.
  - reflexivity.
  - reflexivity.
  - vm_compute. reflexivity.
  - vm_compute. reflexivity.
Defined.

Lemma precision_command_witness :
  @main_step sample_libm (chars ":precision 12abc") (@Env_new sample_libm)
  = Some {| vars := vars (@Env_new sample_libm); precision := 12 |}.
Proof.
  apply (@precision_command sample_libm (chars " ") (chars "12") (chars "abc")).
  - repeat constructor.
  - discriminate.
  - repeat constructor.
  - reflexivity.
  - reflexivity.
Defined.

Lemma parenthesised_target_assigns_witness :
  @evaluate sample_libm "(x=)5*2" (@Env_new sample_libm)
  = (Ok 10%float,
     {| vars := <["x"%string := 10%float]> (vars (@Env_new sample_libm));
        precision := precision (@Env_new sample_libm) |}).
Proof.
  apply (@parenthesised_target_assigns sample_libm "x" (EBin Mul (ENum 5) (ENum 2))).
  - vm_compute. repeat split; discriminate.
  - reflexivity.
  - vm_compute. reflexivity.
Defined.
